(** * Bucketeer: event persister and SDK gateway

    A shallow embedding of [pkg/eventpersister/persister/persister.go]
    (module [Persister]) and of the gateway entry points exercised by the
    gateway API test file (module [Gateway]); further down, of the request
    validation of [pkg/notification/api/subscription.go] (module
    [Notification]) and of the constructor of the Postgres client (module
    [Postgres]).

    Go maps are [gmap]s.  A multi-valued Go return [(v, err)] is a tuple whose
    last component is an [option error] ([None] is [nil]).  Calls on
    collaborators that live outside the package (protobuf decoding, JSON
    encoding, the datastore, the evaluation storage, the feature service, the
    row store) are fields of the records [Lib] and [Persister]: each answers
    as a function of its arguments, and what the persister itself does to its
    surroundings (Ack, Nack, counters, logs) is recorded in a trace. *)

From Stdlib Require Import Sorted.
From stdpp Require Import base gmap strings list fin_maps.

Open Scope string_scope.
Open Scope list_scope.

(** ** Iteration order of a Go map

    [for k, v := range m] visits every entry of [m] exactly once, in an order
    the language leaves unspecified.  A [RangeOrder] fixes one such order for
    every map; everything below is proved for an arbitrary one. *)

Class RangeOrder := {
  range : ∀ {V : Type}, gmap string V → list (string * V);
  range_perm : ∀ (V : Type) (m : gmap string V), range m ≡ₚ map_to_list m
}.

(** The order in which [map_to_list] lists the entries. *)
#[export] Instance canonical_range : RangeOrder :=
  {| range := λ V m, map_to_list m;
     range_perm := λ V m, reflexivity (map_to_list m) |}.

(** ** Protobuf messages shared by the two services *)

Module Proto.

(** [eventproto.SourceId]; only [GOAL_BATCH] is told apart by the code, the
    other enumerators are kept by their [String()] name. *)
Inductive SourceId : Type :=
| SourceId_GOAL_BATCH
| SourceId_OTHER (name : string).

#[export] Instance SourceId_eq_dec : EqDecision SourceId.
Proof. solve_decision. Defined.

Definition SourceId_String (s : SourceId) : string :=
  match s with
  | SourceId_GOAL_BATCH => "GOAL_BATCH"
  | SourceId_OTHER name => name
  end.

(** [featureproto.Reason]: the enumerator [Type] by its [String()] name. *)
Record Reason : Type := { Reason_Type : string }.

Record Evaluation : Type := {
  Evaluation_Id : string;
  Evaluation_FeatureId : string;
  Evaluation_FeatureVersion : Z;
  Evaluation_UserId : string;
  Evaluation_VariationId : string;
  Evaluation_Reason : option Reason
}.

Record User : Type := {
  User_Id : string;
  User_Data : gmap string string
}.

Record EvaluationEvent : Type := {
  EE_SourceId : SourceId;
  EE_Tag : string;
  EE_Timestamp : Z;
  EE_FeatureId : string;
  EE_FeatureVersion : Z;
  EE_UserId : string;
  EE_VariationId : string;
  EE_Reason : option Reason;
  EE_User : option User
}.

Record GoalEvent : Type := {
  GE_SourceId : SourceId;
  GE_Tag : string;
  GE_Timestamp : Z;
  GE_GoalId : string;
  GE_UserId : string;
  GE_User : option User;
  GE_Value : Z;                      (* float64, by its bit pattern *)
  GE_Evaluations : list Evaluation   (* deprecated client-side evaluations *)
}.

Record UserEvent : Type := {
  UE_SourceId : SourceId;
  UE_Tag : string;
  UE_LastSeen : Z;
  UE_UserId : string
}.

(** The dynamic type of a decoded inner payload ([proto.Message]). *)
Inductive ProtoMessage : Type :=
| MsgEvaluationEvent (e : EvaluationEvent)
| MsgGoalEvent (e : GoalEvent)
| MsgUserEvent (e : UserEvent)
| MsgGoalBatchEvent (userId : string)
| MsgMetricsEvent (timestamp : Z)
| MsgOther (typeUrl : string).

(** [any.Any] and the outer envelope [eventproto.Event]. *)
Record Any : Type := { TypeUrl : string; Value : string }.

Record Event : Type := {
  Event_Id : string;
  Event_EnvironmentNamespace : string;
  Event_Event : option Any
}.

End Proto.

Module Persister.
Export Proto.

(** *** Errors *)

Inductive error : Type :=
| ErrKeyNotFound              (* bigtable.ErrKeyNotFound *)
| ErrUnexpectedMessageType    (* persister.ErrUnexpectedMessageType *)
| ErrOther (msg : string).    (* any other error value *)

#[export] Instance error_eq_dec : EqDecision error.
Proof. solve_decision. Defined.

(** [puller.Message]: the payload, the attributes, and the identity of the
    delivery that [Ack] and [Nack] act on. *)
Record Message : Type := {
  Message_ID : string;
  Message_Data : string;
  Message_Attributes : gmap string string
}.

#[export] Instance Message_eq_dec : EqDecision Message.
Proof. solve_decision. Defined.

(** *** Observable effects *)

(** [codes.*], the labels of [handledCounter]. *)
Inductive Code : Type :=
| OK | MissingID | DuplicateID | BadMessage | RepeatableError | NonRepeatableError.

#[export] Instance Code_eq_dec : EqDecision Code.
Proof. solve_decision. Defined.

Inductive Level : Type := LvlError | LvlWarn.

#[export] Instance Level_eq_dec : EqDecision Level.
Proof. solve_decision. Defined.

(** One entry per effect the persister has on its surroundings, in program
    order.  A log entry keeps the message and the [zap.String] fields. *)
Inductive Effect : Type :=
| Ack (m : Message)
| Nack (m : Message)
| Received                      (* receivedCounter.Inc() *)
| Handled (c : Code)            (* handledCounter.WithLabelValues(c).Inc() *)
| Log (lvl : Level) (msg : string) (fields : list (string * string))
| TimerReset.

#[export] Instance Effect_eq_dec : EqDecision Effect.
Proof. solve_decision. Defined.

Abbreviation Trace := (list Effect).

(** Number of increments of [handledCounter] under label [c]. *)
Definition handled (c : Code) (t : Trace) : nat :=
  length (filter (λ e, e = Handled c) t).

(** Number of [Ack]s, respectively [Nack]s, of message [m]. *)
Definition acks (m : Message) (t : Trace) : nat :=
  length (filter (λ e, e = Ack m) t).

Definition nacks (m : Message) (t : Trace) : nat :=
  length (filter (λ e, e = Nack m) t).

(** The trace without its log entries. *)
Definition is_log (e : Effect) : bool :=
  match e with Log _ _ _ => true | _ => false end.

Definition without_logs (t : Trace) : Trace :=
  filter (λ e, is_log e = false) t.

(** *** Collaborators *)

(** [encoding/json] values the persister builds. *)
Inductive JSONValue : Type :=
| JString (s : string)
| JStrings (l : list string).

(** Library functions the package calls. *)
Record Lib : Type := {
  proto_Unmarshal : string → error + Event;              (* into a fresh Event *)
  ptypes_UnmarshalAny : option Any → error + ProtoMessage;  (* DynamicAny.Message *)
  json_Marshal : gmap string JSONValue → string * option error;
  time_Format_RFC3339 : Z → string;      (* time.Unix(t, 0).Format(time.RFC3339) *)
  strconv_FormatInt : Z → string;        (* base 10 *)
  strconv_FormatFloat : Z → string       (* 'f', -1, 64 *)
}.

(** [v2ec.EventCreationStorage] over the row-store client. *)
Record PostgresClient : Type := {
  CreateEvaluationEvent : EvaluationEvent → string → string → option error;
  CreateGoalEvent : GoalEvent → string → string → list string → option error;
  CreateUserEvent : UserEvent → string → string → option error
}.

Record options : Type := {
  maxMPS : Z;
  numWorkers : Z;
  flushSize : Z;
  flushInterval : Z;
  flushTimeout : Z
}.

Record Persister : Type := {
  (* featureClient.EvaluateFeatures(ctx, {User, EnvironmentNamespace, Tag}),
     giving resp.UserEvaluations.Evaluations *)
  featureClient_EvaluateFeatures :
    option User → string → string → list Evaluation * option error;
  (* datastore.Write(ctx, evs, environmentNamespace) *)
  datastore_Write : gmap string string → string → gmap string bool * option error;
  (* userEvaluationStorage.GetUserEvaluations(ctx, userID, namespace, tag) *)
  userEvaluationStorage_GetUserEvaluations :
    string → string → string → list Evaluation * option error;
  postgresClient : option PostgresClient;
  opts : options
}.

Definition with_postgresClient (p : Persister) (pg : option PostgresClient) : Persister :=
  {| featureClient_EvaluateFeatures := featureClient_EvaluateFeatures p;
     datastore_Write := datastore_Write p;
     userEvaluationStorage_GetUserEvaluations := userEvaluationStorage_GetUserEvaluations p;
     postgresClient := pg;
     opts := opts p |}.

Section Code.

Context {R : RangeOrder} (L : Lib).

(** *** [getCurrentUserEvaluations] *)
Definition getCurrentUserEvaluations (p : Persister)
    (environmentNamespace userID tag : string) : list Evaluation * option error :=
  let '(evaluations, err) :=
    userEvaluationStorage_GetUserEvaluations p userID environmentNamespace tag in
  match err with
  | Some e => ([], Some e)
  | None => (evaluations, None)
  end.

(** *** [getEvaluations]

    Returns the evaluations, the [repeatable] flag and the error, together
    with what it logged. *)
Definition getEvaluations (p : Persister) (e : GoalEvent)
    (environmentNamespace : string) : list Evaluation * bool * option error * Trace :=
  if decide (GE_SourceId e = SourceId_GOAL_BATCH) then
    let '(ue, err) := getCurrentUserEvaluations p environmentNamespace (GE_UserId e) (GE_Tag e) in
    match err with
    | Some err =>
        if decide (err = ErrKeyNotFound) then
          let '(resp, err) :=
            featureClient_EvaluateFeatures p (GE_User e) environmentNamespace (GE_Tag e) in
          match err with
          | Some err => ([], false, Some err, [])
          | None => (resp, false, None, [])
          end
        else ([], true, Some err, [])
    | None => (ue, false, None, [])
    end
  else if decide (GE_Tag e = "") then
    (GE_Evaluations e, false, None, [])
  else
    let '(ue, err) := getCurrentUserEvaluations p environmentNamespace (GE_UserId e) (GE_Tag e) in
    match err with
    | Some err' =>
        if decide (err' = ErrKeyNotFound) then (ue, false, None, [])
        else
          ([], true, Some err',
           [Log LvlError "Failed to get user evaluations"
              [("environmentNamespace", environmentNamespace);
               ("sourceId", SourceId_String (GE_SourceId e));
               ("goalId", GE_GoalId e);
               ("userId", GE_UserId e);
               ("tag", GE_Tag e);
               ("timestamp", time_Format_RFC3339 L (GE_Timestamp e))]])
    | None => (ue, false, None, [])
    end.

(** *** [userMetadataColumn] *)
Definition userMetadataColumn (environmentNamespace key : string) : string :=
  if decide (environmentNamespace = "") then "user.data." +:+ key
  else environmentNamespace +:+ ".user.data." +:+ key.

(** The loop [for k, v := range e.User.Data { m[userMetadataColumn(ns, k)] = v }]. *)
Definition add_user_data (environmentNamespace : string) (u : option User)
    (m : gmap string JSONValue) : gmap string JSONValue :=
  match u with
  | Some u =>
      foldl (λ m kv, <[userMetadataColumn environmentNamespace kv.1 := JString kv.2]> m)
            m (range (User_Data u))
  | None => m
  end.

(** *** [marshalEvaluationEvent] *)
Definition marshalEvaluationEvent (e : EvaluationEvent)
    (environmentNamespace : string) : string * bool * option error :=
  let m : gmap string JSONValue := ∅ in
  let m := <["environmentNamespace" := JString environmentNamespace]> m in
  let m := <["sourceId" := JString (SourceId_String (EE_SourceId e))]> m in
  let m := <["tag" := JString (EE_Tag e)]> m in
  let m := <["timestamp" := JString (time_Format_RFC3339 L (EE_Timestamp e))]> m in
  let m := <["featureId" := JString (EE_FeatureId e)]> m in
  let m := <["featureVersion" := JString (strconv_FormatInt L (EE_FeatureVersion e))]> m in
  let m := <["userId" := JString (EE_UserId e)]> m in
  let m := <["metric.userId" := JString (EE_UserId e)]> m in
  let m := <["variationId" := JString (EE_VariationId e)]> m in
  let m := match EE_Reason e with
           | Some r => <["reason" := JString (Reason_Type r)]> m
           | None => m
           end in
  let m := add_user_data environmentNamespace (EE_User e) m in
  let '(b, err) := json_Marshal L m in
  match err with
  | Some err => ("", false, Some err)
  | None => (b, false, None)
  end.

(** [fmt.Sprintf("%s:%d:%s:%s", FeatureId, FeatureVersion, VariationId, reason)]
    over the evaluations, as both [marshalGoalEvent] and [createGoalEvent]
    build it. *)
Definition format_evaluation (eval : Evaluation) : string :=
  let reason := match Evaluation_Reason eval with
                | Some r => Reason_Type r
                | None => ""
                end in
  Evaluation_FeatureId eval +:+ ":" +:+ strconv_FormatInt L (Evaluation_FeatureVersion eval)
    +:+ ":" +:+ Evaluation_VariationId eval +:+ ":" +:+ reason.

Definition warn_no_evaluations (e : GoalEvent) (environmentNamespace : string)
    (evaluations : list string) : Trace :=
  if decide (length evaluations = 0) then
    [Log LvlWarn "Goal event has no evaluations"
       [("environmentNamespace", environmentNamespace);
        ("sourceId", SourceId_String (GE_SourceId e));
        ("goalId", GE_GoalId e);
        ("userId", GE_UserId e);
        ("tag", GE_Tag e);
        ("timestamp", time_Format_RFC3339 L (GE_Timestamp e))]]
  else [].

(** *** [marshalGoalEvent] *)
Definition marshalGoalEvent (p : Persister) (e : GoalEvent)
    (environmentNamespace : string) : string * bool * option error * Trace :=
  let m : gmap string JSONValue := ∅ in
  let m := <["environmentNamespace" := JString environmentNamespace]> m in
  let m := <["sourceId" := JString (SourceId_String (GE_SourceId e))]> m in
  let m := <["tag" := JString (GE_Tag e)]> m in
  let m := <["timestamp" := JString (time_Format_RFC3339 L (GE_Timestamp e))]> m in
  let m := <["goalId" := JString (GE_GoalId e)]> m in
  let m := <["userId" := JString (GE_UserId e)]> m in
  let m := <["metric.userId" := JString (GE_UserId e)]> m in
  let m := add_user_data environmentNamespace (GE_User e) m in
  let m := <["value" := JString (strconv_FormatFloat L (GE_Value e))]> m in
  let '(ue, retriable, err, t) := getEvaluations p e environmentNamespace in
  match err with
  | Some err => ("", retriable, Some err, t)
  | None =>
      let evaluations := map format_evaluation ue in
      let t := t ++ warn_no_evaluations e environmentNamespace evaluations in
      let m := <["evaluations" := JStrings evaluations]> m in
      let '(b, err) := json_Marshal L m in
      match err with
      | Some err => ("", false, Some err, t)
      | None => (b, false, None, t)
      end
  end.

(** *** [marshalUserEvent] *)
Definition marshalUserEvent (e : UserEvent)
    (environmentNamespace : string) : string * bool * option error :=
  let m : gmap string JSONValue := ∅ in
  let m := <["environmentNamespace" := JString environmentNamespace]> m in
  let m := <["sourceId" := JString (SourceId_String (UE_SourceId e))]> m in
  let m := <["tag" := JString (UE_Tag e)]> m in
  let m := <["timestamp" := JString (time_Format_RFC3339 L (UE_LastSeen e))]> m in
  let m := <["userId" := JString (UE_UserId e)]> m in
  let '(b, err) := json_Marshal L m in
  match err with
  | Some err => ("", false, Some err)
  | None => (b, false, None)
  end.

(** *** [marshalEvent]: the type switch and its fall-through. *)
Definition marshalEvent (p : Persister) (event : ProtoMessage)
    (environmentNamespace : string) : string * bool * option error * Trace :=
  match event with
  | MsgEvaluationEvent e => (marshalEvaluationEvent e environmentNamespace, [])
  | MsgGoalEvent e => marshalGoalEvent p e environmentNamespace
  | MsgUserEvent e => (marshalUserEvent e environmentNamespace, [])
  | _ => ("", false, Some ErrUnexpectedMessageType, [])
  end.

(** *** The row-store path: [createEvent] and its three cases. *)
Definition log_store_failure (msg environmentNamespace : string) : Trace :=
  [Log LvlError msg [("environmentNamespace", environmentNamespace)]].

Definition createEvaluationEvent (pg : PostgresClient) (event : EvaluationEvent)
    (id environmentNamespace : string) : option error * Trace :=
  match CreateEvaluationEvent pg event id environmentNamespace with
  | Some err => (Some err, log_store_failure "Failed to store evaluation event" environmentNamespace)
  | None => (None, [])
  end.

Definition createGoalEvent (p : Persister) (pg : PostgresClient) (event : GoalEvent)
    (id environmentNamespace : string) : option error * Trace :=
  let '(ue, _, err, t) := getEvaluations p event environmentNamespace in
  match err with
  | Some err => (Some err, t)
  | None =>
      let evaluations := map format_evaluation ue in
      let t := t ++ warn_no_evaluations event environmentNamespace evaluations in
      match CreateGoalEvent pg event id environmentNamespace evaluations with
      | Some err =>
          (Some err, t ++ log_store_failure "Failed to store goal event" environmentNamespace)
      | None => (None, t)
      end
  end.

Definition createUserEvent (pg : PostgresClient) (event : UserEvent)
    (id environmentNamespace : string) : option error * Trace :=
  match CreateUserEvent pg event id environmentNamespace with
  | Some err => (Some err, log_store_failure "Failed to store user event" environmentNamespace)
  | None => (None, [])
  end.

Definition createEvent (p : Persister) (pg : PostgresClient) (event : ProtoMessage)
    (id environmentNamespace : string) : option error * Trace :=
  match event with
  | MsgEvaluationEvent e => createEvaluationEvent pg e id environmentNamespace
  | MsgGoalEvent e => createGoalEvent p pg e id environmentNamespace
  | MsgUserEvent e => createUserEvent pg e id environmentNamespace
  | _ => (Some ErrUnexpectedMessageType, [])
  end.

(** *** [extractEvents] *)

Abbreviation eventMap := (gmap string ProtoMessage).
Abbreviation environmentEventMap := (gmap string (gmap string ProtoMessage)).

(** The closure [handleBadMessage]. *)
Definition handleBadMessage (m : Message) : Trace :=
  [Ack m; Log LvlError "bad message" []; Handled BadMessage].

(** What a message decodes to: the envelope and its inner payload, or nothing
    when either [proto.Unmarshal] or [ptypes.UnmarshalAny] fails. *)
Definition decode (m : Message) : option (Event * ProtoMessage) :=
  match proto_Unmarshal L (Message_Data m) with
  | inl _ => None
  | inr event =>
      match ptypes_UnmarshalAny L (Event_Event event) with
      | inl _ => None
      | inr innerEvent => Some (event, innerEvent)
      end
  end.

(** One iteration of the loop over [messages]. *)
Definition extractEvents_body (st : environmentEventMap * Trace)
    (km : string * Message) : environmentEventMap * Trace :=
  let '(envEvents, t) := st in
  let m := km.2 in
  match proto_Unmarshal L (Message_Data m) with
  | inl _ => (envEvents, t ++ handleBadMessage m)
  | inr event =>
      match ptypes_UnmarshalAny L (Event_Event event) with
      | inl _ => (envEvents, t ++ handleBadMessage m)
      | inr innerEvent =>
          match envEvents !! Event_EnvironmentNamespace event with
          | Some innerEvents =>
              (<[Event_EnvironmentNamespace event :=
                   <[Event_Id event := innerEvent]> innerEvents]> envEvents, t)
          | None =>
              (<[Event_EnvironmentNamespace event :=
                   {[Event_Id event := innerEvent]}]> envEvents, t)
          end
      end
  end.

Definition extractEvents (messages : gmap string Message) : environmentEventMap * Trace :=
  foldl extractEvents_body (∅, []) (range messages).

(** *** [send] *)

(** Lines 242-251: the row-store write, when a client is configured. *)
Definition store_event (p : Persister) (event : ProtoMessage)
    (id environmentNamespace : string) : Trace :=
  match postgresClient p with
  | Some pg =>
      let '(err, t) := createEvent p pg event id environmentNamespace in
      match err with
      | Some _ =>
          t ++ [Log LvlError "failed to store an event"
                  [("id", id); ("environmentNamespace", environmentNamespace)]]
      | None => t
      end
  | None => []
  end.

(** Lines 241-266: one iteration of the loop over the events of an
    environment; the state is [evs], [fails] and the trace so far. *)
Definition send_event (p : Persister) (environmentNamespace : string)
    (st : gmap string string * gmap string bool * Trace)
    (ie : string * ProtoMessage) : gmap string string * gmap string bool * Trace :=
  let '(evs, fails, t) := st in
  let '(id, event) := ie in
  let t := t ++ store_event p event id environmentNamespace in
  let '(eventJSON, repeatable, err, tm) := marshalEvent p event environmentNamespace in
  let t := t ++ tm in
  match err with
  | Some _ =>
      let t :=
        if repeatable then t
        else t ++ [Log LvlError "failed to marshal an unrepeatable event"
                     [("id", id); ("environmentNamespace", environmentNamespace)]] in
      (evs, <[id := repeatable]> fails, t)
  | None => (<[id := eventJSON]> evs, fails, t)
  end.

(** Lines 276-278: [for id, f := range fs { fails[id] = f }]. *)
Definition merge_fails (fails fs : gmap string bool) : gmap string bool :=
  foldl (λ fails idf, <[idf.1 := idf.2]> fails) fails (range fs).

(** Lines 239-280: one iteration of the loop over the environments. *)
Definition send_environment (p : Persister) (st : gmap string bool * Trace)
    (ee : string * eventMap) : gmap string bool * Trace :=
  let '(fails, t) := st in
  let '(environmentNamespace, events) := ee in
  let '(evs, fails, t) :=
    foldl (send_event p environmentNamespace) ((∅ : gmap string string), fails, t)
          (range events) in
  if decide (0 < size evs) then
    let '(fs, err) := datastore_Write p evs environmentNamespace in
    let t :=
      match err with
      | Some _ =>
          t ++ [Log LvlError "could not write to datastore"
                  [("environmentNamespace", environmentNamespace)]]
      | None => t
      end in
    (merge_fails fails fs, t)
  else (fails, t).

(** Lines 282-293: the body of the final loop, for the entry [id ↦ m]. *)
Definition ack_message (fails : gmap string bool) (im : string * Message) : Trace :=
  match fails !! im.1 with
  | Some true => [Nack im.2; Handled RepeatableError]
  | Some false => [Ack im.2; Handled NonRepeatableError]
  | None => [Ack im.2; Handled OK]
  end.

(** The whole flush.  The first component is the failure map once it has been
    filled, [None] when [send] returns before creating it. *)
Definition send_run (p : Persister) (messages : gmap string Message)
    : option (gmap string bool) * Trace :=
  let '(envEvents, t) := extractEvents messages in
  if decide (size envEvents = 0) then
    (None, t ++ [Log LvlError "all messages were bad" []])
  else
    let '(fails, t) := foldl (send_environment p) (∅, t) (range envEvents) in
    (Some fails, t ++ flat_map (ack_message fails) (range messages)).

Definition send (p : Persister) (messages : gmap string Message) : Trace :=
  (send_run p messages).2.

Definition send_fails (p : Persister) (messages : gmap string Message)
    : option (gmap string bool) :=
  (send_run p messages).1.

(** *** [batch] *)

(** What one [select] of the worker loop can observe. *)
Inductive Selected : Type :=
| MessageCh (msg : Message)   (* msg, ok := <-p.puller.MessageCh() with ok *)
| MessageChClosed             (* ... with !ok *)
| TimerC                      (* <-timer.C *)
| CtxDone.                    (* <-p.ctx.Done() *)

(** [msg.Attributes["id"]]: the empty string when the key is missing. *)
Definition id_attribute (msg : Message) : string :=
  default "" (Message_Attributes msg !! "id").

(** Lines 198-217: the body of the message case.  The state is the current
    batch and the trace so far. *)
Definition batch_message (p : Persister) (st : gmap string Message * Trace)
    (msg : Message) : gmap string Message * Trace :=
  let '(batch, t) := st in
  let t := t ++ [Received] in
  let id := id_attribute msg in
  if decide (id = "") then
    (batch, t ++ [Ack msg; Handled MissingID])
  else
    let t :=
      match batch !! id with
      | Some previous =>
          t ++ [Ack previous;
                Log LvlWarn "Message with duplicate id" [("id", id)];
                Handled DuplicateID]
      | None => t
      end in
    let batch := <[id := msg]> batch in
    if decide (Z.of_nat (size batch) < flushSize (opts p))%Z then (batch, t)
    else (∅, t ++ send p batch ++ [TimerReset]).

(** One turn of the [for { select { ... } }] loop: the next state, or [inr]
    with the final trace when the worker returns. *)
Definition batch_select (p : Persister) (st : gmap string Message * Trace)
    (s : Selected) : gmap string Message * Trace + Trace :=
  match s with
  | MessageCh msg => inl (batch_message p st msg)
  | MessageChClosed => inr st.2
  | TimerC =>
      let '(batch, t) := st in
      if decide (0 < size batch) then inl (∅, t ++ send p batch ++ [TimerReset])
      else inl (batch, t ++ [TimerReset])
  | CtxDone => inr st.2
  end.

(** The worker, run against the sequence of things its [select]s observe. *)
Fixpoint batch_loop (p : Persister) (st : gmap string Message * Trace)
    (ss : list Selected) : gmap string Message * Trace + Trace :=
  match ss with
  | [] => inl st
  | s :: ss =>
      match batch_select p st s with
      | inl st => batch_loop p st ss
      | inr t => inr t
      end
  end.

Definition batch (p : Persister) (ss : list Selected)
    : gmap string Message * Trace + Trace :=
  batch_loop p (∅, []) ss.

(** *** Notions used to state facts about the flush *)

(** The payload [envEvents] holds for event [eid] of environment [ns]. *)
Definition lookup_event (envEvents : gmap string (gmap string ProtoMessage))
    (ns eid : string) : option ProtoMessage :=
  envEvents !! ns ≫= λ events, events !! eid.


(** The contract of the sink: the failures [Write] reports are failures of
    records it was given. *)
Definition reports_written_records (p : Persister) : Prop :=
  ∀ evs ns, dom (datastore_Write p evs ns).1 ⊆ dom evs.

(** Two runs agree on their state and on everything but what they logged. *)
Definition same_outcome {A : Type} (st st' : A * Trace) : Prop :=
  st.1 = st'.1 ∧ without_logs st.2 = without_logs st'.2.

(** The bad messages of a batch, as [extractEvents] handles them. *)
Definition bad_messages (l : list (string * Message)) : Trace :=
  flat_map (λ km, match decode km.2 with
                  | Some _ => []
                  | None => [Ack km.2; Handled BadMessage]
                  end) l.

End Code.

End Persister.

(** * The SDK gateway

    The gateway's implementation file is not among the sources; what follows
    is taken from the specification and from the gateway's API tests, which
    every definition names. *)

Module Gateway.
Export Proto.

Inductive error : Type :=
| ErrContextCanceled
| ErrMissingAPIKey
| ErrInvalidAPIKey
| ErrBadRole
| ErrDisabledAPIKey
| ErrTagRequired
| ErrUserRequired
| ErrUserIDRequired
| ErrMissingEvents
| ErrMissingEventID
| ErrInternal.

#[export] Instance gateway_error_eq_dec : EqDecision error.
Proof. solve_decision. Defined.

(** [accountproto.APIKey] and [accountproto.EnvironmentAPIKey]. *)
Inductive APIKey_Role : Type := APIKey_SDK | APIKey_SERVICE.

#[export] Instance APIKey_Role_eq_dec : EqDecision APIKey_Role.
Proof. solve_decision. Defined.

Record APIKey : Type := {
  APIKey_Id : string;
  APIKey_Role_of : APIKey_Role;
  APIKey_Disabled : bool
}.

Record EnvironmentAPIKey : Type := {
  EnvironmentNamespace : string;
  ApiKey : APIKey;
  EnvironmentDisabled : bool
}.

(** [featureproto.Feature], as far as the gateway's own steps look at it. *)
Record Feature : Type := {
  Feature_Id : string;
  Feature_Version : Z;
  Feature_Tags : list string
}.

Inductive UserEvaluations_State : Type :=
| UserEvaluations_FULL
| UserEvaluations_PARTIAL.

Record UserEvaluations : Type := { Evaluations : list Evaluation }.

Record GetEvaluationsRequest : Type := {
  Req_Tag : string;
  Req_User : option User;
  Req_UserEvaluationsId : string
}.

Record GetEvaluationsResponse : Type := {
  Resp_State : UserEvaluations_State;
  Resp_Evaluations : option UserEvaluations;   (* a pointer: [None] is nil *)
  Resp_UserEvaluationsId : string
}.

(** The typed inner payloads [RegisterEvents] routes. *)
Inductive InnerEvent : Type :=
| InnerGoalEvent (e : GoalEvent)
| InnerGoalBatchEvent (userId : string)
| InnerEvaluationEvent (e : EvaluationEvent)
| InnerMetricsEvent (timestamp : Z).

Record RegisterEventsRequest : Type := { Events : list Event }.

Record RegisterEventsResponse_Error : Type := {
  Retriable : bool;
  Message : string
}.

Record RegisterEventsResponse : Type := {
  Errors : gmap string RegisterEventsResponse_Error
}.

(** The incoming context: its cancellation signal and the values of the
    [authorization] metadata slot. *)
Record Context : Type := {
  canceled : bool;
  authorization : list string
}.

(** The collaborators of [grpcGatewayService], each cache taken together with
    the origin it reads through to (§4.1). *)
Record grpcGatewayService : Type := {
  (* EnvironmentAPIKeyCache, then the account service *)
  getEnvironmentAPIKey : string → error + EnvironmentAPIKey;
  (* FeaturesCache, then ListFeatures *)
  getFeatures : string → error + list Feature;
  (* featuredomain.UserEvaluationsID(userID, userMetadata, features) *)
  UserEvaluationsID : string → gmap string string → list Feature → string;
  (* the evaluation engine over the gateway's segment provider (§4.2):
     features, user, environment namespace, tag *)
  evaluateFeatures : list Feature → User → string → string → error + UserEvaluations;
  (* the typed inner payload of an envelope; [None] for an unknown type *)
  decodeEvent : option Any → option InnerEvent;
  (* userEvaluationStorage.UpsertUserEvaluation: event, namespace, tag *)
  UpsertUserEvaluation : EvaluationEvent → string → string → option error
}.

(** Modelled from the spec: [extractAPIKeyID], the reading of the
    [authorization] slot (§4.3.1 "Missing → ErrMissingAPIKey"); the cases
    are those of [TestGrpcExtractAPIKeyID]. *)
Definition extractAPIKeyID (ctx : Context) : error + string :=
  match authorization ctx with
  | [] => inl ErrMissingAPIKey
  | key :: _ => if decide (key = "") then inl ErrMissingAPIKey else inr key
  end.

(** Modelled from the spec: [checkEnvironmentAPIKey] (§4.3.1): "role matches
    required ... mismatch is ErrBadRole; disabled ∨ environmentDisabled →
    ErrDisabledAPIKey".  [TestGrpcCheckEnvironmentAPIKey] calls it with the
    key and the required role. *)
Definition checkEnvironmentAPIKey (environmentAPIKey : EnvironmentAPIKey)
    (role : APIKey_Role) : option error :=
  if decide (APIKey_Role_of (ApiKey environmentAPIKey) = role) then
    if APIKey_Disabled (ApiKey environmentAPIKey) || EnvironmentDisabled environmentAPIKey
    then Some ErrDisabledAPIKey
    else None
  else Some ErrBadRole.

(** Modelled from the spec: the admission of a request (§4.3.1): the
    cancellation signal is observed "before any downstream work", then the
    key is read, resolved and checked. *)
Definition checkRequest (s : grpcGatewayService) (ctx : Context)
    (role : APIKey_Role) : error + EnvironmentAPIKey :=
  if canceled ctx then inl ErrContextCanceled
  else
    match extractAPIKeyID ctx with
    | inl err => inl err
    | inr id =>
        match getEnvironmentAPIKey s id with
        | inl err => inl err
        | inr envAPIKey =>
            match checkEnvironmentAPIKey envAPIKey role with
            | Some err => inl err
            | None => inr envAPIKey
            end
        end
    end.

(** Modelled from the spec: [validateGetEvaluationsRequest] (§4.3.2: the
    tag is not empty, the user is not nil, the user id is not empty, else
    ErrTagRequired / ErrUserRequired / ErrUserIDRequired), in the order of
    [TestGrpcValidateGetEvaluationsRequest]. *)
Definition validateGetEvaluationsRequest (req : GetEvaluationsRequest) : option error :=
  if decide (Req_Tag req = "") then Some ErrTagRequired
  else
    match Req_User req with
    | None => Some ErrUserRequired
    | Some user => if decide (User_Id user = "") then Some ErrUserIDRequired else None
    end.

(** The features a tag selects (§4.2): "a feature with no tag matches all
    tags". *)
Definition tag_matches (tag : string) (f : Feature) : bool :=
  bool_decide (Feature_Tags f = []) || bool_decide (tag ∈ Feature_Tags f).

Definition filter_by_tag (tag : string) (features : list Feature) : list Feature :=
  filter (λ f, tag_matches tag f = true) features.

(** Modelled from the spec: [GetEvaluations] (§4.3.2, steps 1 to 4; the
    best-effort publication of step 5 does not reach the response).  Two
    points are fixed by the gateway's tests rather than by the text:
    - [TestGrpcGetEvaluationsZeroFeature]: an empty feature list is answered
      at once, with nil evaluations and no id;
    - [TestGrpcGetEvaluationsUserEvaluationsID]: the id is computed over the
      feature list as it was fetched (the requests carry tag "test", the
      features are tagged android, ios and web, and the expected id is
      [UserEvaluationsID(userID, userMetadata, multiFeatures)]). *)
Definition GetEvaluations (s : grpcGatewayService) (ctx : Context)
    (req : GetEvaluationsRequest) : error + GetEvaluationsResponse :=
  match checkRequest s ctx APIKey_SDK with
  | inl err => inl err
  | inr envAPIKey =>
      match validateGetEvaluationsRequest req, Req_User req with
      | Some err, _ => inl err
      | None, None => inl ErrUserRequired
      | None, Some user =>
          match getFeatures s (EnvironmentNamespace envAPIKey) with
          | inl err => inl err
          | inr features =>
              if decide (length features = 0) then
                inr {| Resp_State := UserEvaluations_FULL;
                       Resp_Evaluations := None;
                       Resp_UserEvaluationsId := "" |}
              else
                let ueid := UserEvaluationsID s (User_Id user) (User_Data user) features in
                if decide (Req_UserEvaluationsId req = ueid) then
                  inr {| Resp_State := UserEvaluations_FULL;
                         Resp_Evaluations := None;
                         Resp_UserEvaluationsId := ueid |}
                else
                  match evaluateFeatures s features user
                          (EnvironmentNamespace envAPIKey) (Req_Tag req) with
                  | inl _ => inl ErrInternal
                  | inr evaluations =>
                      inr {| Resp_State := UserEvaluations_FULL;
                             Resp_Evaluations := Some evaluations;
                             Resp_UserEvaluationsId := ueid |}
                  end
          end
      end
  end.

(** Modelled from the spec: the handling of one event of [RegisterEvents]
    (§4.3.4): "Unknown type → per-event error {retriable: false, message:
    "Invalid message type"}"; for an EvaluationEvent the upsert "keyed by
    (userId, env, tag or "none")", whose failure is "{retriable: true,
    message: "Failed to upsert user evaluation"}".  The result is the entry
    for the errors map, if any. *)
Definition registerEvent (s : grpcGatewayService) (environmentNamespace : string)
    (event : Event) : option RegisterEventsResponse_Error :=
  match decodeEvent s (Event_Event event) with
  | None => Some {| Retriable := false; Message := "Invalid message type" |}
  | Some (InnerEvaluationEvent e) =>
      let tag := if decide (EE_Tag e = "") then "none" else EE_Tag e in
      match UpsertUserEvaluation s e environmentNamespace tag with
      | Some _ =>
          Some {| Retriable := true; Message := "Failed to upsert user evaluation" |}
      | None => None
      end
  | Some _ => None
  end.

(** The loop over the events: an event without id fails the call, any other
    event adds at most its own entry to the errors map. *)
Fixpoint registerEvents_loop (s : grpcGatewayService) (environmentNamespace : string)
    (errs : gmap string RegisterEventsResponse_Error) (events : list Event)
    : error + gmap string RegisterEventsResponse_Error :=
  match events with
  | [] => inr errs
  | event :: events =>
      if decide (Event_Id event = "") then inl ErrMissingEventID
      else
        let errs :=
          match registerEvent s environmentNamespace event with
          | Some e => <[Event_Id event := e]> errs
          | None => errs
          end in
        registerEvents_loop s environmentNamespace errs events
  end.

(** The entry an event has for the errors map, taken as an event of the id
    [id]: none when its id is another. *)
Definition entry_under (s : grpcGatewayService) (environmentNamespace id : string)
    (event : Event) : option RegisterEventsResponse_Error :=
  if decide (Event_Id event = id) then registerEvent s environmentNamespace event
  else None.

(** Modelled from the spec: [RegisterEvents] (§4.3.4): admission, "Zero
    events → ErrMissingEvents", "Each event must have a non-empty id
    (ErrMissingEventID)", and the response "{errors: map[eventId →
    {retriable, message}]}"; the cases are those of [TestGrcpRegisterEvents].
    The publication of the routed events leaves no entry in the map. *)
Definition RegisterEvents (s : grpcGatewayService) (ctx : Context)
    (req : RegisterEventsRequest) : error + RegisterEventsResponse :=
  match checkRequest s ctx APIKey_SDK with
  | inl err => inl err
  | inr envAPIKey =>
      if decide (length (Events req) = 0) then inl ErrMissingEvents
      else
        match registerEvents_loop s (EnvironmentNamespace envAPIKey) ∅ (Events req) with
        | inl err => inl err
        | inr errs => inr {| Errors := errs |}
        end
  end.

End Gateway.

(** * Test doubles

    Concrete collaborators, in the manner of the mocks of the Go tests, for
    running the definitions on concrete inputs. *)

Module Fixtures.

Module P.
Import Persister.

Definition evaluation_event : EvaluationEvent :=
  {| EE_SourceId := SourceId_OTHER "ANDROID"; EE_Tag := "ios"; EE_Timestamp := 0;
     EE_FeatureId := "feature-a"; EE_FeatureVersion := 1; EE_UserId := "user-0";
     EE_VariationId := "variation-a"; EE_Reason := None; EE_User := None |}.

Definition goal_event : GoalEvent :=
  {| GE_SourceId := SourceId_GOAL_BATCH; GE_Tag := "ios"; GE_Timestamp := 0;
     GE_GoalId := "goal-0"; GE_UserId := "user-0"; GE_User := None; GE_Value := 0;
     GE_Evaluations := [] |}.

Definition fetched_evaluation : Evaluation :=
  {| Evaluation_Id := "feature-a:1:user-0"; Evaluation_FeatureId := "feature-a";
     Evaluation_FeatureVersion := 1; Evaluation_UserId := "user-0";
     Evaluation_VariationId := "variation-a"; Evaluation_Reason := None |}.

Definition envelope (id typeUrl : string) : Event :=
  {| Event_Id := id; Event_EnvironmentNamespace := "ns0";
     Event_Event := Some {| TypeUrl := typeUrl; Value := EmptyString |} |}.

(** The payloads the test decoder knows, each with the envelope it decodes
    to; any other payload fails to decode. *)
Definition wire : gmap string Event :=
  list_to_map [("evaluation of a", envelope "a" "EvaluationEvent");
               ("evaluation of r", envelope "r" "EvaluationEvent");
               ("goal batch of b", envelope "b" "GoalBatchEvent")].

Definition lib : Lib :=
  {| proto_Unmarshal := λ data,
       match wire !! data with
       | Some event => inr event
       | None => inl (ErrOther "proto: cannot parse")
       end;
     ptypes_UnmarshalAny := λ a,
       match a with
       | Some {| TypeUrl := "EvaluationEvent" |} => inr (MsgEvaluationEvent evaluation_event)
       | Some {| TypeUrl := "GoalBatchEvent" |} => inr (MsgGoalBatchEvent "user-0")
       | _ => inl (ErrOther "any: unknown type")
       end;
     json_Marshal := λ _, ("{}", None);
     time_Format_RFC3339 := λ _, "1970-01-01T00:00:00Z";
     strconv_FormatInt := λ _, "1";
     strconv_FormatFloat := λ _, "0" |}.

(** A datastore that fails, repeatably, on the record with id r. *)
Definition write_failing_r (evs : gmap string string) (ns : string)
    : gmap string bool * option error :=
  (const true <$> filter (λ kv, kv.1 = "r") evs, None).

Definition persister : Persister :=
  {| featureClient_EvaluateFeatures := λ _ _ _, ([fetched_evaluation], None);
     datastore_Write := write_failing_r;
     userEvaluationStorage_GetUserEvaluations := λ _ _ _, ([], Some ErrKeyNotFound);
     postgresClient := None;
     opts := {| maxMPS := 1000; numWorkers := 1; flushSize := 50;
                flushInterval := 5; flushTimeout := 20 |} |}.

Definition message (id data : string) : Message :=
  {| Message_ID := id; Message_Data := data; Message_Attributes := {["id" := id]} |}.

(** A batch with one good message and one that cannot be decoded. *)
Definition batch_with_bad_message : gmap string Message :=
  {["a" := message "a" "evaluation of a"; "x" := message "x" "not a payload"]}.

(** A batch whose record r the datastore fails to write. *)
Definition batch_with_failed_write : gmap string Message :=
  {["a" := message "a" "evaluation of a"; "r" := message "r" "evaluation of r"]}.



End P.

Module G.
Import Gateway.

(** A stand-in for the hash [UserEvaluationsID]: the user id followed by the
    ids of the features. *)
Definition fingerprint (userID : string) (userMetadata : gmap string string)
    (features : list Feature) : string :=
  foldl (λ acc f, acc +:+ ":" +:+ Feature_Id f) userID features.

Definition evaluation_of (user : User) (f : Feature) : Evaluation :=
  {| Evaluation_Id := Feature_Id f; Evaluation_FeatureId := Feature_Id f;
     Evaluation_FeatureVersion := Feature_Version f; Evaluation_UserId := User_Id user;
     Evaluation_VariationId := "variation-a"; Evaluation_Reason := None |}.

Definition android_feature : Feature :=
  {| Feature_Id := "feature-a"; Feature_Version := 1; Feature_Tags := ["android"] |}.

(** The keys of [TestGrpcCheckEnvironmentAPIKey]. *)
Definition test_key (role : APIKey_Role) (disabled environmentDisabled : bool)
    : EnvironmentAPIKey :=
  {| EnvironmentNamespace := "ns0";
     ApiKey := {| APIKey_Id := "id-0"; APIKey_Role_of := role; APIKey_Disabled := disabled |};
     EnvironmentDisabled := environmentDisabled |}.

Definition sdk_key : EnvironmentAPIKey :=
  {| EnvironmentNamespace := "ns0";
     ApiKey := {| APIKey_Id := "id-0"; APIKey_Role_of := APIKey_SDK;
                  APIKey_Disabled := false |};
     EnvironmentDisabled := false |}.

Definition ios_feature : Feature :=
  {| Feature_Id := "feature-b"; Feature_Version := 1; Feature_Tags := ["ios"] |}.

Definition web_feature : Feature :=
  {| Feature_Id := "feature-c"; Feature_Version := 1; Feature_Tags := ["web"] |}.

Definition multiFeatures : list Feature := [android_feature; ios_feature; web_feature].

(** A gateway over the feature list [features], whose evaluation storage
    answers every upsert with [upsert]. *)
Definition service_with (features : list Feature) (upsert : option error)
    : grpcGatewayService :=
  {| getEnvironmentAPIKey := λ _, inr sdk_key;
     getFeatures := λ _, inr features;
     UserEvaluationsID := fingerprint;
     evaluateFeatures := λ features user _ tag,
       inr {| Evaluations := map (evaluation_of user) (filter_by_tag tag features) |};
     decodeEvent := λ a,
       match a with
       | Some {| TypeUrl := "GoalEvent" |} => Some (InnerGoalEvent P.goal_event)
       | Some {| TypeUrl := "EvaluationEvent" |} =>
           Some (InnerEvaluationEvent P.evaluation_event)
       | Some {| TypeUrl := "MetricsEvent" |} => Some (InnerMetricsEvent 0)
       | Some {| TypeUrl := "GoalBatchEvent" |} => Some (InnerGoalBatchEvent "user-0")
       | _ => None
       end;
     UpsertUserEvaluation := λ _ _ _, upsert |}.

(** The same, with a storage that refuses every upsert. *)
Definition service (features : list Feature) : grpcGatewayService :=
  service_with features (Some ErrInternal).

Definition context : Context :=
  {| canceled := false; authorization := ["test-key"] |}.

Definition user : User := {| User_Id := "user-id-0"; User_Data := ∅ |}.

Definition request (ueid : string) : GetEvaluationsRequest :=
  {| Req_Tag := "test"; Req_User := Some user; Req_UserEvaluationsId := ueid |}.

Definition event (id typeUrl : string) : Event :=
  {| Event_Id := id; Event_EnvironmentNamespace := EmptyString;
     Event_Event := Some {| TypeUrl := typeUrl; Value := EmptyString |} |}.

Definition events : list Event :=
  [event "uuid0" "GoalEvent"; event "uuid1" "EvaluationEvent";
   event "uuid2" "MetricsEvent"; event "uuid3" "Any"].

End G.

End Fixtures.

(** * More of the persister: notions for the whole flush *)

Module Flush.
Import Persister.

Section Notions.

Context {R : RangeOrder} (L : Lib).

(** The record [marshalEvent] produces for an event, when it produces one. *)
Definition marshalled (p : Persister) (ns : string) (event : ProtoMessage) : option string :=
  match marshalEvent L p event ns with
  | (eventJSON, _, None, _) => Some eventJSON
  | _ => None
  end.

(** The [repeatable] flag [marshalEvent] returns with an error. *)
Definition marshal_failure (p : Persister) (ns : string) (event : ProtoMessage) : option bool :=
  match marshalEvent L p event ns with
  | (_, repeatable, Some _, _) => Some repeatable
  | _ => None
  end.

(** The payload of a message, when the message decodes to an event of the
    environment [ns]. *)
Definition event_in (ns : string) (m : Message) : option ProtoMessage :=
  match decode L m with
  | Some (event, innerEvent) =>
      if decide (Event_EnvironmentNamespace event = ns) then Some innerEvent else None
  | None => None
  end.

(** The records of the environment [ns] that a flush of [messages] hands to
    the datastore, by the key of their message. *)
Definition written (p : Persister) (messages : gmap string Message) (ns : string)
    : gmap string string :=
  omap (λ m, event_in ns m ≫= marshalled p ns) messages.

(** Every message of the batch that decodes is stored under the event id of
    its envelope, as it is when whoever published the message gave it the
    event id as id attribute.  The persister does not look at this: the
    batch is keyed by the attribute (line 199), the events and the failure
    map by the event id (lines 316 to 319, and 262). *)
Definition carries_own_id (messages : gmap string Message) : Prop :=
  ∀ k m event innerEvent,
    messages !! k = Some m → decode L m = Some (event, innerEvent) → Event_Id event = k.

(** What one iteration of the loop over the environments leaves in the
    failure map, in closed form. *)
Definition environment_fails (p : Persister) (ns : string)
    (events : gmap string ProtoMessage) (fails : gmap string bool) : gmap string bool :=
  let evs := omap (marshalled p ns) events in
  let fails := omap (marshal_failure p ns) events ∪ fails in
  if decide (0 < size evs) then (datastore_Write p evs ns).1 ∪ fails else fails.

(** What the failure map of a flush holds for the key [k]: nothing for a
    message that does not decode; the flag of [marshalEvent] for an event it
    fails on; and for a record handed to the datastore what the datastore
    reports for it. *)
Definition verdict (p : Persister) (messages : gmap string Message) (k : string)
    : option bool :=
  messages !! k ≫= λ m,
    match decode L m with
    | None => None
    | Some (event, innerEvent) =>
        let ns := Event_EnvironmentNamespace event in
        match marshal_failure p ns innerEvent with
        | Some repeatable => Some repeatable
        | None => (datastore_Write p (written p messages ns) ns).1 !! k
        end
    end.

(** The messages of a batch that do not decode. *)
Definition undecodable (messages : gmap string Message) : gmap string Message :=
  filter (λ km, decode L km.2 = None) messages.

(** Every message of a pending batch is stored under its own id attribute,
    which is not empty. *)
Definition stored_by_id (batch : gmap string Message) : Prop :=
  ∀ id m, batch !! id = Some m → id_attribute m = id ∧ id ≠ "".

End Notions.

End Flush.
(** * More of the persister: records and options *)

Module Records.
Import Persister.

(** The character [.], by its code. *)
Definition dot : Ascii.ascii := Ascii.ascii_of_nat 46.

(** Number of dots in a column name. *)
Fixpoint dots (s : string) : nat :=
  match s with
  | EmptyString => 0
  | String a s => (if decide (a = dot) then 1 else 0) + dots s
  end.

(** The columns the three marshal functions set by name. *)
Definition fixed_columns : list string :=
  ["environmentNamespace"; "sourceId"; "tag"; "timestamp"; "featureId";
   "featureVersion"; "userId"; "metric.userId"; "variationId"; "reason";
   "goalId"; "value"; "evaluations"].

Section Columns.

Context {R : RangeOrder} (L : Lib).

(** The columns [marshalEvaluationEvent] sets by name ... *)
Definition evaluationEventNamedColumns (e : EvaluationEvent) (environmentNamespace : string)
    : gmap string JSONValue :=
  let m : gmap string JSONValue := ∅ in
  let m := <["environmentNamespace" := JString environmentNamespace]> m in
  let m := <["sourceId" := JString (SourceId_String (EE_SourceId e))]> m in
  let m := <["tag" := JString (EE_Tag e)]> m in
  let m := <["timestamp" := JString (time_Format_RFC3339 L (EE_Timestamp e))]> m in
  let m := <["featureId" := JString (EE_FeatureId e)]> m in
  let m := <["featureVersion" := JString (strconv_FormatInt L (EE_FeatureVersion e))]> m in
  let m := <["userId" := JString (EE_UserId e)]> m in
  let m := <["metric.userId" := JString (EE_UserId e)]> m in
  let m := <["variationId" := JString (EE_VariationId e)]> m in
  match EE_Reason e with
  | Some r => <["reason" := JString (Reason_Type r)]> m
  | None => m
  end.

(** ... and the map it hands to [json.Marshal], with the user metadata. *)
Definition evaluationEventColumns (e : EvaluationEvent) (environmentNamespace : string)
    : gmap string JSONValue :=
  add_user_data environmentNamespace (EE_User e)
    (evaluationEventNamedColumns e environmentNamespace).

End Columns.

(** *** Options

    [Option] is a function on the unexported [options]; outside the package
    the options there are, are the ones the [With...] functions return.
    [WithMetrics] and [WithLogger] set the registry and the logger, which
    are not among the fields kept here. *)
Inductive Option : Type :=
| WithMaxMPS (mps : Z)
| WithNumWorkers (n : Z)
| WithFlushSize (s : Z)
| WithFlushInterval (i : Z)
| WithFlushTimeout (timeout : Z)
| WithMetrics
| WithLogger.

(** Calling the option on the options. *)
Definition apply_option (o : Option) (opts : options) : options :=
  match o with
  | WithMaxMPS mps =>
      {| maxMPS := mps; numWorkers := numWorkers opts; flushSize := flushSize opts;
         flushInterval := flushInterval opts; flushTimeout := flushTimeout opts |}
  | WithNumWorkers n =>
      {| maxMPS := maxMPS opts; numWorkers := n; flushSize := flushSize opts;
         flushInterval := flushInterval opts; flushTimeout := flushTimeout opts |}
  | WithFlushSize s =>
      {| maxMPS := maxMPS opts; numWorkers := numWorkers opts; flushSize := s;
         flushInterval := flushInterval opts; flushTimeout := flushTimeout opts |}
  | WithFlushInterval i =>
      {| maxMPS := maxMPS opts; numWorkers := numWorkers opts; flushSize := flushSize opts;
         flushInterval := i; flushTimeout := flushTimeout opts |}
  | WithFlushTimeout timeout =>
      {| maxMPS := maxMPS opts; numWorkers := numWorkers opts; flushSize := flushSize opts;
         flushInterval := flushInterval opts; flushTimeout := timeout |}
  | WithMetrics | WithLogger => opts
  end.

(** [time.Second], in nanoseconds. *)
Definition time_Second : Z := 1000000000.

(** The [dopts] of [NewPersister] before any option is applied. *)
Definition defaultOptions : options :=
  {| maxMPS := 1000; numWorkers := 1; flushSize := 50;
     flushInterval := 5 * time_Second; flushTimeout := 20 * time_Second |}.

(** [NewPersister]: the collaborators as given, the options applied in
    order to the defaults. *)
Definition NewPersister
    (featureClient : option User → string → string → list Evaluation * option error)
    (ds : gmap string string → string → gmap string bool * option error)
    (bt : string → string → string → list Evaluation * option error)
    (postgres : option PostgresClient) (opts : list Option) : Persister :=
  {| featureClient_EvaluateFeatures := featureClient;
     datastore_Write := ds;
     userEvaluationStorage_GetUserEvaluations := bt;
     postgresClient := postgres;
     opts := foldl (λ dopts opt, apply_option opt dopts) defaultOptions opts |}.

(** The argument of the last option of a kind, [d] when there is none. *)
Definition last_setting (sel : Option → option Z) (d : Z) (opts : list Option) : Z :=
  default d (last (omap sel opts)).

(** The kinds of option. *)
Definition maxMPS_of (o : Option) : option Z :=
  match o with WithMaxMPS mps => Some mps | _ => None end.
Definition numWorkers_of (o : Option) : option Z :=
  match o with WithNumWorkers n => Some n | _ => None end.
Definition flushSize_of (o : Option) : option Z :=
  match o with WithFlushSize s => Some s | _ => None end.
Definition flushInterval_of (o : Option) : option Z :=
  match o with WithFlushInterval i => Some i | _ => None end.
Definition flushTimeout_of (o : Option) : option Z :=
  match o with WithFlushTimeout timeout => Some timeout | _ => None end.

End Records.
(** * The notification API: subscriptions (pkg/notification/api/subscription.go) *)

Module Notification.

(** The statuses of the package.  [localizedError] attaches to a status the
    message of a locale (always [locale.JaJP] in this file); an error is
    told apart by the status it was built from. *)
Inductive error : Type :=
| statusInternal
| statusNoCommand
| statusNameRequired
| statusSourceTypesRequired
| statusRecipientRequired
| statusUnknownRecipient
| statusSlackRecipientRequired
| statusSlackRecipientWebhookURLRequired
| statusIDRequired
| statusNotFound
| statusAlreadyExists
| statusInvalidCursor
| statusInvalidOrderBy.

#[global] Instance notification_error_eq_dec : EqDecision error.
Proof. solve_decision. Defined.

Definition localizedError (status : error) : error := status.

(** [notificationproto.Recipient_Type]: [Recipient_SlackChannel], or any
    other value of the enum. *)
Inductive Recipient_Type : Type :=
| Recipient_SlackChannel
| Recipient_Type_other.

#[global] Instance Recipient_Type_eq_dec : EqDecision Recipient_Type.
Proof. solve_decision. Defined.

Record SlackChannelRecipient : Type := {
  WebhookUrl : string
}.

Record Recipient : Type := {
  Recipient_Type_of : Recipient_Type;
  Recipient_SlackChannelRecipient : option SlackChannelRecipient
}.

(** A source type is a value of the enum [Subscription_SourceType]. *)
Record CreateSubscriptionCommand : Type := {
  CSC_SourceTypes : list Z;
  CSC_Recipient : option Recipient;
  CSC_Name : string
}.

Record CreateSubscriptionRequest : Type := {
  CSR_EnvironmentNamespace : string;
  CSR_Command : option CreateSubscriptionCommand
}.

Record AddSourceTypesCommand : Type := {
  AST_SourceTypes : list Z
}.

Record DeleteSourceTypesCommand : Type := {
  DST_SourceTypes : list Z
}.

Record RenameSubscriptionCommand : Type := {
  RSC_Name : string
}.

Record UpdateSubscriptionRequest : Type := {
  USR_EnvironmentNamespace : string;
  USR_Id : string;
  USR_AddSourceTypesCommand : option AddSourceTypesCommand;
  USR_DeleteSourceTypesCommand : option DeleteSourceTypesCommand;
  USR_RenameSubscriptionCommand : option RenameSubscriptionCommand
}.

(** [command.Command], as far as an update request can hold one. *)
Inductive Command : Type :=
| CmdAddSourceTypes (c : AddSourceTypesCommand)
| CmdDeleteSourceTypes (c : DeleteSourceTypesCommand)
| CmdRenameSubscription (c : RenameSubscriptionCommand).

Definition validateSlackRecipient (sr : option SlackChannelRecipient) : option error :=
  match sr with
  | None => Some (localizedError statusSlackRecipientRequired)
  | Some sr =>
      if decide (WebhookUrl sr = "")
      then Some (localizedError statusSlackRecipientWebhookURLRequired)
      else None
  end.

Definition validateRecipient (recipient : option Recipient) : option error :=
  match recipient with
  | None => Some (localizedError statusRecipientRequired)
  | Some recipient =>
      if decide (Recipient_Type_of recipient = Recipient_SlackChannel)
      then validateSlackRecipient (Recipient_SlackChannelRecipient recipient)
      else Some (localizedError statusUnknownRecipient)
  end.

Definition validateCreateSubscriptionRequest (req : CreateSubscriptionRequest)
    : option error :=
  match CSR_Command req with
  | None => Some (localizedError statusNoCommand)
  | Some command =>
      if decide (CSC_Name command = "") then Some (localizedError statusNameRequired)
      else if decide (length (CSC_SourceTypes command) = 0)
      then Some (localizedError statusSourceTypesRequired)
      else match validateRecipient (CSC_Recipient command) with
           | Some err => Some err
           | None => None
           end
  end.

Definition isNoUpdateSubscriptionCommand (req : UpdateSubscriptionRequest) : bool :=
  bool_decide (USR_AddSourceTypesCommand req = None) &&
  bool_decide (USR_DeleteSourceTypesCommand req = None) &&
  bool_decide (USR_RenameSubscriptionCommand req = None).

Definition validateUpdateSubscriptionRequest (req : UpdateSubscriptionRequest)
    : option error :=
  if decide (USR_Id req = "") then Some (localizedError statusIDRequired)
  else if isNoUpdateSubscriptionCommand req then Some (localizedError statusNoCommand)
  else if match USR_AddSourceTypesCommand req with
          | Some c => bool_decide (length (AST_SourceTypes c) = 0)
          | None => false
          end
  then Some (localizedError statusSourceTypesRequired)
  else if match USR_DeleteSourceTypesCommand req with
          | Some c => bool_decide (length (DST_SourceTypes c) = 0)
          | None => false
          end
  then Some (localizedError statusSourceTypesRequired)
  else if match USR_RenameSubscriptionCommand req with
          | Some c => bool_decide (RSC_Name c = "")
          | None => false
          end
  then Some (localizedError statusNameRequired)
  else None.

Definition createUpdateSubscriptionCommands (req : UpdateSubscriptionRequest)
    : list Command :=
  let commands : list Command := [] in
  let commands :=
    match USR_AddSourceTypesCommand req with
    | Some c => commands ++ [CmdAddSourceTypes c]
    | None => commands
    end in
  let commands :=
    match USR_DeleteSourceTypesCommand req with
    | Some c => commands ++ [CmdDeleteSourceTypes c]
    | None => commands
    end in
  let commands :=
    match USR_RenameSubscriptionCommand req with
    | Some c => commands ++ [CmdRenameSubscription c]
    | None => commands
    end in
  commands.

(** A command that changes something: source types to add or to delete, or
    a new name. *)
Definition changes_something (c : Command) : Prop :=
  match c with
  | CmdAddSourceTypes c => AST_SourceTypes c ≠ []
  | CmdDeleteSourceTypes c => DST_SourceTypes c ≠ []
  | CmdRenameSubscription c => RSC_Name c ≠ ""
  end.

(** The place of a command in the order add, delete, rename. *)
Definition command_rank (c : Command) : nat :=
  match c with
  | CmdAddSourceTypes _ => 0
  | CmdDeleteSourceTypes _ => 1
  | CmdRenameSubscription _ => 2
  end.

(** A create request that has everything a subscription needs. *)
Definition complete_request (req : CreateSubscriptionRequest) : Prop :=
  ∃ command recipient sr,
    CSR_Command req = Some command ∧
    CSC_Name command ≠ "" ∧
    CSC_SourceTypes command ≠ [] ∧
    CSC_Recipient command = Some recipient ∧
    Recipient_Type_of recipient = Recipient_SlackChannel ∧
    Recipient_SlackChannelRecipient recipient = Some sr ∧
    WebhookUrl sr ≠ "".

End Notification.

(** * The Postgres client (pkg/storage/v2/postgres/client.go) *)

Module Postgres.

Definition alloydb : string := "alloydb".

(** The logger is not among the fields kept here. *)
Record options : Type := {
  connMaxLifetime : Z;
  maxOpenConns : Z;
  maxIdleConns : Z
}.

Definition defaultOptions : options :=
  {| connMaxLifetime := 300 * Records.time_Second; maxOpenConns := 10; maxIdleConns := 5 |}.

(** An error of a library, told by its message. *)
Record error : Type := {
  Error : string
}.

#[global] Instance postgres_error_eq_dec : EqDecision error.
Proof. solve_decision. Defined.

(** The options the [With...] functions return. *)
Inductive Option : Type :=
| WithConnMaxLifetime (cml : Z)
| WithMaxOpenConns (moc : Z)
| WithMaxIdleConns (mic : Z)
| WithLogger.

Definition apply_option (o : Option) (opts : options) : options :=
  match o with
  | WithConnMaxLifetime cml =>
      {| connMaxLifetime := cml; maxOpenConns := maxOpenConns opts;
         maxIdleConns := maxIdleConns opts |}
  | WithMaxOpenConns moc =>
      {| connMaxLifetime := connMaxLifetime opts; maxOpenConns := moc;
         maxIdleConns := maxIdleConns opts |}
  | WithMaxIdleConns mic =>
      {| connMaxLifetime := connMaxLifetime opts; maxOpenConns := maxOpenConns opts;
         maxIdleConns := mic |}
  | WithLogger => opts
  end.

(** What [NewClient] does to the driver registry, the database handle, the
    logger and the process, in order. *)
Inductive Effect : Type :=
| RegisterDriver (name : string)
| Cleanup
| Open (driverName dataSourceName : string)
| SetConnMaxLifetime (d : Z)
| SetMaxOpenConns (n : Z)
| SetMaxIdleConns (n : Z)
| PingContext
| LogError (msg : string) (err : error)
| Fatal (err : error).

#[global] Instance postgres_Effect_eq_dec : EqDecision Effect.
Proof. solve_decision. Defined.

(** How the libraries answer: [pgxv4.RegisterDriver] (without an error it
    gives the cleanup function), that cleanup function, [sql.Open] and
    [db.PingContext]. *)
Record World : Type := {
  pgxv4_RegisterDriver : string → option error;
  cleanup : option error;
  sql_Open : string → string → option error;
  db_PingContext : option error
}.

(** The handle [sql.Open] gave, told by its data source name, and the
    options. *)
Record client : Type := {
  db : string;
  opts : options
}.

(** [NewClient] returns, or [log.Fatal] ends the process. *)
Inductive Outcome : Type :=
| Returns (c : option client) (err : option error)
| Exits.

Definition dataSourceName (project region cluster instance dbUser dbPass dbName : string)
    : string :=
  "host=projects/" +:+ project +:+ "/locations/" +:+ region +:+ "/clusters/" +:+ cluster
    +:+ "/instances/" +:+ instance +:+ " user=" +:+ dbUser +:+ " password=" +:+ dbPass
    +:+ " dbname=" +:+ dbName +:+ " sslmode=disable".

Definition NewClient (w : World)
    (project region cluster instance dbUser dbPass dbName : string)
    (opts : list Option) : Outcome * list Effect :=
  let dopts := foldl (λ dopts opt, apply_option opt dopts) defaultOptions opts in
  match pgxv4_RegisterDriver w alloydb with
  | Some err => (Returns None (Some err), [RegisterDriver alloydb])
  | None =>
      let dsn := dataSourceName project region cluster instance dbUser dbPass dbName in
      let '(c, err, t) :=
        match sql_Open w alloydb dsn with
        | Some err => (None, Some err, [Open alloydb dsn; LogError "Failed to open db" err])
        | None =>
            let t := [Open alloydb dsn;
                      SetConnMaxLifetime (connMaxLifetime dopts);
                      SetMaxOpenConns (maxOpenConns dopts);
                      SetMaxIdleConns (maxIdleConns dopts);
                      PingContext] in
            match db_PingContext w with
            | Some err => (None, Some err, t ++ [LogError "Failed to ping db" err])
            | None => (Some {| db := dsn; opts := dopts |}, None, t)
            end
        end in
      (* the deferred function *)
      match cleanup w with
      | Some err => (Exits, RegisterDriver alloydb :: t ++ [Cleanup; Fatal err])
      | None => (Returns c err, RegisterDriver alloydb :: t ++ [Cleanup])
      end
  end.

(** How often the cleanup function of the driver is called. *)
Definition cleanups (t : list Effect) : nat :=
  length (filter (λ e, e = Cleanup) t).

(** What is done to the database handle. *)
Definition on_db (e : Effect) : bool :=
  match e with
  | SetConnMaxLifetime _ | SetMaxOpenConns _ | SetMaxIdleConns _ | PingContext => true
  | _ => false
  end.

(** The argument of the last option of a kind, [d] when there is none. *)
Definition last_setting (sel : Option → option Z) (d : Z) (opts : list Option) : Z :=
  default d (last (omap sel opts)).

Definition connMaxLifetime_of (o : Option) : option Z :=
  match o with WithConnMaxLifetime cml => Some cml | _ => None end.
Definition maxOpenConns_of (o : Option) : option Z :=
  match o with WithMaxOpenConns moc => Some moc | _ => None end.
Definition maxIdleConns_of (o : Option) : option Z :=
  match o with WithMaxIdleConns mic => Some mic | _ => None end.

(** The first error of the steps register, open, ping. *)
Definition first_failure (w : World) (dsn : string) : option error :=
  match pgxv4_RegisterDriver w alloydb with
  | Some err => Some err
  | None =>
      match sql_Open w alloydb dsn with
      | Some err => Some err
      | None => db_PingContext w
      end
  end.

End Postgres.

(** * More fixtures: goal events *)

Module GoalFixtures.
Import Persister Fixtures.P.

(** The payloads of [Fixtures.P], and a goal event under the event id g. *)
Definition wire : gmap string Event :=
  <["goal of g" := envelope "g" "GoalEvent"]> Fixtures.P.wire.

Definition lib : Lib :=
  {| proto_Unmarshal := λ data,
       match wire !! data with
       | Some event => inr event
       | None => inl (ErrOther "proto: cannot parse")
       end;
     ptypes_UnmarshalAny := λ a,
       match a with
       | Some {| TypeUrl := "GoalEvent" |} => inr (MsgGoalEvent goal_event)
       | other => ptypes_UnmarshalAny Fixtures.P.lib other
       end;
     json_Marshal := json_Marshal Fixtures.P.lib;
     time_Format_RFC3339 := time_Format_RFC3339 Fixtures.P.lib;
     strconv_FormatInt := strconv_FormatInt Fixtures.P.lib;
     strconv_FormatFloat := strconv_FormatFloat Fixtures.P.lib |}.

(** The persister of [Fixtures.P] over an evaluation storage that answers
    every lookup with [stored], and a feature service that answers every
    call with [evaluated]. *)
Definition persister_over (stored evaluated : list Evaluation * option error) : Persister :=
  {| featureClient_EvaluateFeatures := λ _ _ _, evaluated;
     datastore_Write := datastore_Write persister;
     userEvaluationStorage_GetUserEvaluations := λ _ _ _, stored;
     postgresClient := None;
     opts := opts persister |}.

Definition unavailable : error := ErrOther "unavailable".

(** A batch of one goal event. *)
Definition batch_with_goal : gmap string Message :=
  {["g" := message "g" "goal of g"]}.

End GoalFixtures.

(** * More fixtures: an event id on two messages, a datastore that reports
    on what it was not given *)

Module SharedIdFixtures.
Import Persister Fixtures.P.

(** The payloads of [Fixtures.P], and an evaluation event with the event id
    b of the goal batch event. *)
Definition wire : gmap string Event :=
  <["evaluation of b" := envelope "b" "EvaluationEvent"]> Fixtures.P.wire.

Definition lib : Lib :=
  {| proto_Unmarshal := λ data,
       match wire !! data with
       | Some event => inr event
       | None => inl (ErrOther "proto: cannot parse")
       end;
     ptypes_UnmarshalAny := ptypes_UnmarshalAny Fixtures.P.lib;
     json_Marshal := json_Marshal Fixtures.P.lib;
     time_Format_RFC3339 := time_Format_RFC3339 Fixtures.P.lib;
     strconv_FormatInt := strconv_FormatInt Fixtures.P.lib;
     strconv_FormatFloat := strconv_FormatFloat Fixtures.P.lib |}.



End SharedIdFixtures.

(** * Facts about the persister *)

Module PersisterFacts.
Import Persister.

Section Range.

Context {R : RangeOrder}.

Lemma elem_of_range {V : Type} (m : gmap string V) (k : string) (v : V) :
  (k, v) ∈ range m ↔ m !! k = Some v.
Proof. rewrite (range_perm V m). apply elem_of_map_to_list. Qed.

Lemma NoDup_fst_range {V : Type} (m : gmap string V) : NoDup (range m).*1.
Proof. rewrite (range_perm V m). apply NoDup_fst_map_to_list. Qed.

Lemma length_range {V : Type} (m : gmap string V) : length (range m) = size m.
Proof. rewrite (range_perm V m). apply length_map_to_list. Qed.

(** The entry of a key splits the iteration in what comes before it and what
    comes after it; the key occurs in neither. *)
Lemma range_split {V : Type} (m : gmap string V) (k : string) (v : V) :
  m !! k = Some v →
  ∃ before after,
    range m = before ++ ((k, v) :: after) ∧
    (k ∉ before.*1) ∧ (k ∉ after.*1).
Proof.
  intros Hk. apply elem_of_range in Hk.
  apply list_elem_of_split in Hk as (before & after & Heq).
  exists before, after. split; [done|].
  pose proof (NoDup_fst_range m) as Hnd.
  rewrite Heq, fmap_app, fmap_cons in Hnd. simpl in Hnd.
  apply NoDup_app in Hnd as (_ & Hdisj & Hnd).
  apply NoDup_cons in Hnd as [Hnotin _].
  split; [|done].
  intros Hin. apply (Hdisj _ Hin). left.
Qed.

End Range.

(** ** Goal-event enrichment *)

Section Enrichment.

Context {R : RangeOrder} (L : Lib).

Lemma getCurrentUserEvaluations_ok (p : Persister) (ns uid tag : string)
    (stored : list Evaluation) :
  userEvaluationStorage_GetUserEvaluations p uid ns tag = (stored, None) →
  getCurrentUserEvaluations p ns uid tag = (stored, None).
Proof. unfold getCurrentUserEvaluations. by intros ->. Qed.

Lemma getCurrentUserEvaluations_err (p : Persister) (ns uid tag : string)
    (stored : list Evaluation) (err : error) :
  userEvaluationStorage_GetUserEvaluations p uid ns tag = (stored, Some err) →
  getCurrentUserEvaluations p ns uid tag = ([], Some err).
Proof. unfold getCurrentUserEvaluations. by intros ->. Qed.

(** C2. The evaluations a goal event is enriched with.  With [stored, serr]
    what the evaluation storage answers for (userId, environmentNamespace,
    tag) and [fetched, ferr] what the feature service's EvaluateFeatures
    answers for the event's inlined user:
    - sourceId = GOAL_BATCH: the stored evaluations; on KeyNotFound the
      answer of EvaluateFeatures; any other storage error is returned with
      repeatable = true;
    - otherwise, tag = "": the evaluations the client sent;
    - otherwise: the stored evaluations; KeyNotFound gives the empty list
      and no error, and marshalling then only logs the warning; any other
      storage error is returned with repeatable = true. *)
Theorem getEvaluations_selection (p : Persister) (e : GoalEvent) (ns : string)
    (stored fetched : list Evaluation) (serr ferr : option error) :
  userEvaluationStorage_GetUserEvaluations p (GE_UserId e) ns (GE_Tag e) = (stored, serr) →
  featureClient_EvaluateFeatures p (GE_User e) ns (GE_Tag e) = (fetched, ferr) →
  (GE_SourceId e = SourceId_GOAL_BATCH →
     (serr = None → getEvaluations L p e ns = (stored, false, None, [])) ∧
     (serr = Some ErrKeyNotFound → ferr = None →
        getEvaluations L p e ns = (fetched, false, None, [])) ∧
     (serr = Some ErrKeyNotFound → ∀ fe, ferr = Some fe →
        getEvaluations L p e ns = ([], false, Some fe, [])) ∧
     (∀ se, serr = Some se → se ≠ ErrKeyNotFound →
        getEvaluations L p e ns = ([], true, Some se, []))) ∧
  (GE_SourceId e ≠ SourceId_GOAL_BATCH → GE_Tag e = "" →
     getEvaluations L p e ns = (GE_Evaluations e, false, None, [])) ∧
  (GE_SourceId e ≠ SourceId_GOAL_BATCH → GE_Tag e ≠ "" →
     (serr = None → getEvaluations L p e ns = (stored, false, None, [])) ∧
     (serr = Some ErrKeyNotFound →
        getEvaluations L p e ns = ([], false, None, []) ∧
        (marshalGoalEvent L p e ns).2 = warn_no_evaluations L e ns [] ∧
        warn_no_evaluations L e ns [] ≠ [] ∧
        without_logs (warn_no_evaluations L e ns []) = []) ∧
     (∀ se, serr = Some se → se ≠ ErrKeyNotFound →
        ∃ t, getEvaluations L p e ns = ([], true, Some se, t) ∧ without_logs t = [])).
Proof.
  intros Hst Hrpc. unfold marshalGoalEvent, getEvaluations.
  split; [|split].
  - intros Hsrc. rewrite decide_True by done.
    split; [|split; [|split]].
    + intros ->. by rewrite (getCurrentUserEvaluations_ok _ _ _ _ _ Hst).
    + intros -> ->. rewrite (getCurrentUserEvaluations_err _ _ _ _ _ _ Hst).
      rewrite decide_True by done. by rewrite Hrpc.
    + intros -> fe ->. rewrite (getCurrentUserEvaluations_err _ _ _ _ _ _ Hst).
      rewrite decide_True by done. by rewrite Hrpc.
    + intros se -> Hne. rewrite (getCurrentUserEvaluations_err _ _ _ _ _ _ Hst).
      by rewrite decide_False.
  - intros Hsrc Htag. rewrite decide_False by done. by rewrite decide_True.
  - intros Hsrc Htag. rewrite !decide_False by done.
    split; [|split].
    + intros ->. by rewrite (getCurrentUserEvaluations_ok _ _ _ _ _ Hst).
    + intros ->. rewrite (getCurrentUserEvaluations_err _ _ _ _ _ _ Hst).
      rewrite decide_True by done. simpl.
      split; [done|]. split; [|done].
      by destruct (json_Marshal L _) as [b [err|]].
    + intros se -> Hne. rewrite (getCurrentUserEvaluations_err _ _ _ _ _ _ Hst).
      rewrite decide_False by done. eexists. split; [reflexivity|done].
Qed.

End Enrichment.

(** ** The flush *)

Section Flush.

Context {R : RangeOrder} (L : Lib).

(** [send] either stops after [extractEvents] with every message bad, or
    fills the failure map and ends with the ack loop over the whole batch. *)
Lemma send_run_cases (p : Persister) (messages : gmap string Message) :
  (send_fails L p messages = None ∧
   (extractEvents L messages).1 = ∅ ∧
   send L p messages =
     (extractEvents L messages).2 ++ [Log LvlError "all messages were bad" []]) ∨
  (∃ fails t,
     send_fails L p messages = Some fails ∧
     (extractEvents L messages).1 ≠ ∅ ∧
     foldl (send_environment L p) (∅, (extractEvents L messages).2)
           (range (extractEvents L messages).1) = (fails, t) ∧
     send L p messages = t ++ flat_map (ack_message fails) (range messages)).
Proof.
  unfold send_fails, send, send_run.
  destruct (extractEvents L messages) as [envEvents t0]. simpl.
  case_decide as Hsz.
  - left. by apply map_size_empty_iff in Hsz.
  - right.
    destruct (foldl _ _ _) as [fails t] eqn:Hfold.
    exists fails, t. repeat split; try done.
    intros ->. by apply Hsz.
Qed.

(** The final loop runs its body once for the entry of every id. *)
Lemma send_final_loop (p : Persister) (messages : gmap string Message)
    (fails : gmap string bool) (id : string) (m : Message) :
  send_fails L p messages = Some fails →
  messages !! id = Some m →
  ∃ (t : Trace) (before after : list (string * Message)),
    range messages = before ++ ((id, m) :: after) ∧
    (id ∉ before.*1) ∧ (id ∉ after.*1) ∧
    send L p messages =
      t ++ flat_map (ack_message fails) before
        ++ ack_message fails (id, m)
        ++ flat_map (ack_message fails) after.
Proof.
  intros Hfails Hm.
  destruct (send_run_cases p messages)
    as [(Hnone & _) | (fails' & t & Hsome & _ & _ & Hsend)]; [congruence|].
  assert (fails' = fails) as -> by congruence.
  destruct (range_split messages id m Hm) as (before & after & Heq & Hb & Ha).
  exists t, before, after.
  split; [done|]. split; [done|]. split; [done|].
  by rewrite Hsend, Heq, flat_map_app.
Qed.

(** C1. Once [send] has filled the failure map [fails], its final loop runs
    its body exactly once for every entry [id ↦ m] of the flushed batch, and
    that body is: [Ack] and one increment of OK when [id] is absent from
    [fails]; [Nack] and one increment of RepeatableError when [fails] maps
    [id] to [true]; [Ack] and one increment of NonRepeatableError when it maps
    [id] to [false]. *)
Theorem send_ack_policy (p : Persister) (messages : gmap string Message)
    (fails : gmap string bool) (id : string) (m : Message) :
  send_fails L p messages = Some fails →
  messages !! id = Some m →
  ∃ (t : Trace) (before after : list (string * Message)),
    range messages = before ++ ((id, m) :: after) ∧
    (id ∉ before.*1) ∧ (id ∉ after.*1) ∧
    send L p messages =
      t ++ flat_map (ack_message fails) before
        ++ ack_message fails (id, m)
        ++ flat_map (ack_message fails) after ∧
    (fails !! id = None → ack_message fails (id, m) = [Ack m; Handled OK]) ∧
    (fails !! id = Some true →
       ack_message fails (id, m) = [Nack m; Handled RepeatableError]) ∧
    (fails !! id = Some false →
       ack_message fails (id, m) = [Ack m; Handled NonRepeatableError]).
Proof.
  intros Hfails Hm.
  destruct (send_final_loop p messages fails id m Hfails Hm)
    as (t & before & after & Heq & Hb & Ha & Hsend).
  exists t, before, after.
  split; [done|]. split; [done|]. split; [done|]. split; [done|].
  unfold ack_message. simpl. by repeat split; intros ->.
Qed.

(** *** What [extractEvents] collects *)

Lemma lookup_event_Some envEvents ns eid inner :
  lookup_event envEvents ns eid = Some inner ↔
  ∃ events, envEvents !! ns = Some events ∧ events !! eid = Some inner.
Proof.
  unfold lookup_event. destruct (envEvents !! ns) as [events|]; simpl.
  - split; [by exists events | by intros (? & [= <-] & ?)].
  - split; [done | by intros (? & ? & ?)].
Qed.

Lemma extractEvents_body_lookup envEvents t k m ns eid :
  lookup_event (extractEvents_body L (envEvents, t) (k, m)).1 ns eid =
  match decode L m with
  | Some (event, inner) =>
      if decide (Event_EnvironmentNamespace event = ns ∧ Event_Id event = eid)
      then Some inner else lookup_event envEvents ns eid
  | None => lookup_event envEvents ns eid
  end.
Proof.
  unfold extractEvents_body, decode. simpl.
  destruct (proto_Unmarshal L _) as [?|event]; [done|].
  destruct (ptypes_UnmarshalAny L _) as [?|inner]; [done|].
  unfold lookup_event.
  destruct (envEvents !! Event_EnvironmentNamespace event) as [events|] eqn:Hns; simpl;
    (destruct (decide (Event_EnvironmentNamespace event = ns)) as [<-|Hne];
      [rewrite lookup_insert_eq; simpl
      |rewrite lookup_insert_ne by done; by rewrite decide_False by tauto]).
  - rewrite Hns. simpl.
    destruct (decide (Event_Id event = eid)) as [<-|Hid].
    + rewrite lookup_insert_eq. by rewrite decide_True.
    + rewrite lookup_insert_ne by done. by rewrite decide_False by tauto.
  - rewrite Hns. simpl.
    destruct (decide (Event_Id event = eid)) as [<-|Hid].
    + rewrite lookup_singleton_eq. by rewrite decide_True.
    + rewrite lookup_singleton_ne by done. by rewrite decide_False by tauto.
Qed.

(** Every payload in the result was decoded from a message of the batch. *)
Lemma extractEvents_fold_origin (l : list (string * Message)) st ns eid inner :
  lookup_event (foldl (extractEvents_body L) st l).1 ns eid = Some inner →
  lookup_event st.1 ns eid = Some inner ∨
  ∃ k m event, (k, m) ∈ l ∧ decode L m = Some (event, inner) ∧
               Event_EnvironmentNamespace event = ns ∧ Event_Id event = eid.
Proof.
  revert st. induction l as [|[k m] l IH]; intros [envEvents t]; cbn [foldl]; [by left|].
  intros Hlook. apply IH in Hlook as [Hlook|(k' & m' & event & Hin & ?)].
  - rewrite extractEvents_body_lookup in Hlook.
    destruct (decode L m) as [[event inner']|] eqn:Hdec; [|by left].
    case_decide as Hcase; [|by left].
    right. exists k, m, event. destruct Hcase. simplify_eq.
    split; [left|done].
  - right. exists k', m', event. split; [by right|done].
Qed.

(** Every decodable message of the batch has its event in the result. *)
Lemma extractEvents_fold_present (l : list (string * Message)) st ns eid :
  (is_Some (lookup_event st.1 ns eid) ∨
   ∃ k m event inner, (k, m) ∈ l ∧ decode L m = Some (event, inner) ∧
                      Event_EnvironmentNamespace event = ns ∧ Event_Id event = eid) →
  is_Some (lookup_event (foldl (extractEvents_body L) st l).1 ns eid).
Proof.
  revert st. induction l as [|[k m] l IH]; intros [envEvents t]; cbn [foldl].
  - intros [?|(? & ? & ? & ? & Hin & _)]; [done|]. by apply elem_of_nil in Hin.
  - intros Hpre. apply IH.
    destruct Hpre as [Hsome|(k' & m' & event & inner & Hin & Hdec & Hns & Hid)].
    + left. rewrite extractEvents_body_lookup.
      destruct (decode L m) as [[event inner]|]; [|done].
      by case_decide.
    + apply elem_of_cons in Hin as [[= -> ->]|Hin].
      * left. rewrite extractEvents_body_lookup, Hdec. by rewrite decide_True.
      * right. by exists k', m', event, inner.
Qed.

(** The trace of [extractEvents]: a run of [handleBadMessage]s. *)
Lemma extractEvents_fold_trace (l : list (string * Message)) st :
  (foldl (extractEvents_body L) st l).2 =
  st.2 ++ flat_map (λ km, match decode L km.2 with
                          | Some _ => []
                          | None => handleBadMessage km.2
                          end) l.
Proof.
  revert st. induction l as [|[k m] l IH]; intros [envEvents t]; cbn [foldl flat_map].
  - by rewrite app_nil_r.
  - rewrite IH. unfold extractEvents_body, decode. simpl.
    destruct (proto_Unmarshal L _) as [?|event]; simpl; [by rewrite <- app_assoc|].
    destruct (ptypes_UnmarshalAny L _) as [?|inner]; simpl; [by rewrite <- app_assoc|].
    by destruct (envEvents !! _).
Qed.

(** *** How the failure map is filled *)

Lemma not_elem_of_range_fst {V : Type} (m : gmap string V) (k : string) :
  m !! k = None → k ∉ (range m).*1.
Proof.
  intros Hnone Hin. apply list_elem_of_fmap in Hin as ([k' v] & -> & Hin).
  apply elem_of_range in Hin. simpl in *. congruence.
Qed.

(** A loop over entries none of which has key [id] keeps what its body keeps
    at other keys. *)
Lemma foldl_other_keys {A B : Type} (P : A → Prop) (f : A → string * B → A)
    (id : string) (l : list (string * B)) (a : A) :
  (∀ a k b, (k, b) ∈ l → k ≠ id → P a → P (f a (k, b))) →
  id ∉ l.*1 → P a → P (foldl f a l).
Proof.
  revert a. induction l as [|[k b] l IH]; intros a Hstep Hnotin Ha; [done|].
  rewrite fmap_cons in Hnotin. apply not_elem_of_cons in Hnotin as [Hne Hnotin].
  cbn [foldl]. apply IH; [|done|].
  - intros a' k' b' Hin. apply Hstep. by right.
  - apply Hstep; [left|by intros ->|done].
Qed.

Lemma merge_fails_other (fails fs : gmap string bool) (id : string) :
  fs !! id = None → merge_fails fails fs !! id = fails !! id.
Proof.
  intros Hnone. unfold merge_fails.
  apply (foldl_other_keys (λ fails', fails' !! id = fails !! id) _ id); [| |done].
  - intros a k b _ Hne Ha. simpl. by rewrite lookup_insert_ne.
  - by apply not_elem_of_range_fst.
Qed.


Lemma send_event_other (p : Persister) (ns : string)
    (st : gmap string string * gmap string bool * Trace)
    (k : string) (event : ProtoMessage) (id : string) :
  k ≠ id →
  (send_event L p ns st (k, event)).1.1 !! id = st.1.1 !! id ∧
  (send_event L p ns st (k, event)).1.2 !! id = st.1.2 !! id.
Proof.
  intros Hne. destruct st as [[evs fails] t]. unfold send_event.
  destruct (marshalEvent L p event ns) as [[[json rep] [err|]] tm]; simpl;
    by rewrite lookup_insert_ne.
Qed.


Lemma send_environment_fails (p : Persister) (fails : gmap string bool) (t : Trace)
    (ns : string) (events : gmap string ProtoMessage) (id : string) (o : option bool) :
  reports_written_records p →
  (let st := foldl (send_event L p ns) ((∅ : gmap string string), fails, t) (range events) in
   st.1.1 !! id = None ∧ st.1.2 !! id = o) →
  (send_environment L p (fails, t) (ns, events)).1 !! id = o.
Proof.
  intros Hsink. unfold send_environment.
  destruct (foldl _ _ _) as [[evs fails'] t']. simpl. intros [Hevs Hfails].
  case_decide; [|done].
  pose proof (Hsink evs ns) as Hdom.
  destruct (datastore_Write p evs ns) as [fs err]. simpl in *.
  rewrite merge_fails_other; [done|].
  apply not_elem_of_dom. apply not_elem_of_dom in Hevs. set_solver.
Qed.

(** An environment without event [id] leaves the entry of [id] alone. *)
Lemma send_environment_other (p : Persister) (fails : gmap string bool) (t : Trace)
    (ns : string) (events : gmap string ProtoMessage) (id : string) :
  reports_written_records p →
  events !! id = None →
  (send_environment L p (fails, t) (ns, events)).1 !! id = fails !! id.
Proof.
  intros Hsink Hnone. apply send_environment_fails; [done|]. cbv zeta.
  apply (foldl_other_keys
    (λ st : gmap string string * gmap string bool * Trace,
       st.1.1 !! id = None ∧ st.1.2 !! id = fails !! id) _ id).
  - intros st k event _ Hne [Hevs Hfails].
    destruct (send_event_other p ns st k event id Hne) as [-> ->]. done.
  - by apply not_elem_of_range_fst.
  - done.
Qed.


(** *** The row store only logs *)

Lemma without_logs_app (t1 t2 : Trace) :
  without_logs (t1 ++ t2) = without_logs t1 ++ without_logs t2.
Proof. apply filter_app. Qed.

Lemma getEvaluations_only_logs (p : Persister) (e : GoalEvent) (ns : string) :
  without_logs (getEvaluations L p e ns).2 = [].
Proof.
  unfold getEvaluations.
  repeat (case_decide || case_match || simplify_eq /= || done).
Qed.

Lemma warn_no_evaluations_only_logs (e : GoalEvent) (ns : string) (l : list string) :
  without_logs (warn_no_evaluations L e ns l) = [].
Proof. unfold warn_no_evaluations. by case_decide. Qed.

Lemma createEvent_only_logs (p : Persister) (pg : PostgresClient)
    (event : ProtoMessage) (id ns : string) :
  without_logs (createEvent L p pg event id ns).2 = [].
Proof.
  destruct event as [e|e|e| | |]; simpl; try done.
  - unfold createEvaluationEvent. by case_match.
  - unfold createGoalEvent.
    pose proof (getEvaluations_only_logs p e ns) as Hlogs.
    destruct (getEvaluations L p e ns) as [[[ue rep] [err|]] t]; simpl in *; [done|].
    pose proof (warn_no_evaluations_only_logs e ns (map (format_evaluation L) ue)) as Hwarn.
    case_match; simpl; rewrite !without_logs_app; simpl.
    + by rewrite Hlogs, Hwarn.
    + by rewrite Hlogs, Hwarn.
  - unfold createUserEvent. by case_match.
Qed.

Lemma store_event_only_logs (p : Persister) (event : ProtoMessage) (id ns : string) :
  without_logs (store_event L p event id ns) = [].
Proof.
  unfold store_event. destruct (postgresClient p) as [pg|]; [|done].
  pose proof (createEvent_only_logs p pg event id ns) as Hlogs.
  destruct (createEvent L p pg event id ns) as [[err|] t]; simpl in *; [|done].
  by rewrite without_logs_app, Hlogs.
Qed.

Lemma marshalEvent_postgresClient (p : Persister) (pg : option PostgresClient)
    (event : ProtoMessage) (ns : string) :
  marshalEvent L (with_postgresClient p pg) event ns = marshalEvent L p event ns.
Proof. by destruct event. Qed.

Lemma foldl_same_outcome {A B : Type} (f g : A * Trace → B → A * Trace) (l : list B) :
  (∀ st st' b, same_outcome st st' → same_outcome (f st b) (g st' b)) →
  ∀ st st', same_outcome st st' → same_outcome (foldl f st l) (foldl g st' l).
Proof.
  intros Hstep. induction l as [|b l IH]; intros st st' Hst; [done|].
  simpl. by apply IH, Hstep.
Qed.

Lemma send_event_frame (p : Persister) (pg1 pg2 : option PostgresClient) (ns : string)
    (st st' : gmap string string * gmap string bool * Trace) (ie : string * ProtoMessage) :
  same_outcome st st' →
  same_outcome (send_event L (with_postgresClient p pg1) ns st ie)
               (send_event L (with_postgresClient p pg2) ns st' ie).
Proof.
  destruct st as [[evs fails] t], st' as [[evs' fails'] t'], ie as [id event].
  intros [Heq Ht]. simpl in Heq, Ht. simplify_eq.
  unfold send_event. rewrite !marshalEvent_postgresClient.
  destruct (marshalEvent L p event ns) as [[[json rep] err] tm].
  split.
  - by destruct err.
  - destruct err as [err|]; [destruct rep|]; simpl;
      rewrite !without_logs_app, !store_event_only_logs; simpl; by rewrite Ht.
Qed.

Lemma send_environment_frame (p : Persister) (pg1 pg2 : option PostgresClient)
    (st st' : gmap string bool * Trace) (ee : string * gmap string ProtoMessage) :
  same_outcome st st' →
  same_outcome (send_environment L (with_postgresClient p pg1) st ee)
               (send_environment L (with_postgresClient p pg2) st' ee).
Proof.
  destruct st as [fails t], st' as [fails' t'], ee as [ns events].
  intros [Heq Ht]. simpl in Heq, Ht. subst fails'.
  unfold send_environment.
  pose proof (foldl_same_outcome
    (send_event L (with_postgresClient p pg1) ns)
    (send_event L (with_postgresClient p pg2) ns)
    (range events) (send_event_frame p pg1 pg2 ns) (∅, fails, t) (∅, fails, t')) as Hfold.
  destruct (foldl (send_event L (with_postgresClient p pg1) ns) _ _) as [[evs1 fails1] t1].
  destruct (foldl (send_event L (with_postgresClient p pg2) ns) _ _) as [[evs2 fails2] t2].
  destruct Hfold as [Hst Hlogs]; [done|]. simpl in Hst, Hlogs. simplify_eq.
  case_decide; [|done]. simpl.
  destruct (datastore_Write p evs2 ns) as [fs [err|]]; split; simpl; try done.
  by rewrite !without_logs_app, Hlogs.
Qed.

(** C8. Whatever row-store client is configured, and whatever its writes
    answer, [send] fills the same failure map and has the same effects apart
    from log entries: the same Acks, Nacks and counter increments, in the same
    order.  A failed row write leaves nothing but log entries, the last of
    which is "failed to store an event". *)
Theorem send_row_store_frame (p : Persister) (pg1 pg2 : option PostgresClient)
    (messages : gmap string Message) :
  send_fails L (with_postgresClient p pg1) messages
    = send_fails L (with_postgresClient p pg2) messages ∧
  without_logs (send L (with_postgresClient p pg1) messages)
    = without_logs (send L (with_postgresClient p pg2) messages) ∧
  (∀ pg event id ns err t,
     createEvent L p pg event id ns = (Some err, t) →
     store_event L (with_postgresClient p (Some pg)) event id ns
       = t ++ [Log LvlError "failed to store an event"
                 [("id", id); ("environmentNamespace", ns)]] ∧
     without_logs (store_event L (with_postgresClient p (Some pg)) event id ns) = []).
Proof.
  assert (same_outcome (send_run L (with_postgresClient p pg1) messages)
                       (send_run L (with_postgresClient p pg2) messages)) as [Hf Ht].
  { unfold send_run. destruct (extractEvents L messages) as [envEvents t0].
    case_decide; [done|].
    pose proof (foldl_same_outcome
      (send_environment L (with_postgresClient p pg1))
      (send_environment L (with_postgresClient p pg2))
      (range envEvents) (send_environment_frame p pg1 pg2) (∅, t0) (∅, t0)) as Hfold.
    destruct (foldl (send_environment L (with_postgresClient p pg1)) _ _) as [fails1 t1].
    destruct (foldl (send_environment L (with_postgresClient p pg2)) _ _) as [fails2 t2].
    destruct Hfold as [Hst Hlogs]; [done|]. simpl in Hst, Hlogs. subst fails2.
    split; [done|]. simpl. by rewrite !without_logs_app, Hlogs. }
  split; [done|]. split; [done|].
  intros pg event id ns err t Hcreate.
  split; [|apply store_event_only_logs].
  unfold store_event. simpl.
  replace (createEvent L (with_postgresClient p (Some pg)) pg event id ns)
    with (createEvent L p pg event id ns) by by destruct event.
  by rewrite Hcreate.
Qed.

(** *** Acks and Nacks of a flush *)

Lemma marshalEvent_only_logs (p : Persister) (event : ProtoMessage) (ns : string) :
  without_logs (marshalEvent L p event ns).2 = [].
Proof.
  destruct event as [e|e|e| | |]; simpl; try done.
  unfold marshalGoalEvent.
  pose proof (getEvaluations_only_logs p e ns) as Hlogs.
  destruct (getEvaluations L p e ns) as [[[ue rep] [err|]] t]; simpl in *; [done|].
  pose proof (warn_no_evaluations_only_logs e ns (map (format_evaluation L) ue)) as Hwarn.
  destruct (json_Marshal L _) as [b [err|]]; simpl;
    by rewrite without_logs_app, Hlogs, Hwarn.
Qed.

Lemma send_event_only_logs (p : Persister) (ns : string)
    (st : gmap string string * gmap string bool * Trace) (ie : string * ProtoMessage) :
  without_logs (send_event L p ns st ie).2 = without_logs st.2.
Proof.
  destruct st as [[evs fails] t], ie as [id event]. unfold send_event.
  pose proof (marshalEvent_only_logs p event ns) as Hlogs.
  destruct (marshalEvent L p event ns) as [[[json rep] err] tm]. simpl in Hlogs.
  destruct err as [err|]; [destruct rep|]; simpl;
    rewrite !without_logs_app, store_event_only_logs, Hlogs; simpl;
    by rewrite !app_nil_r.
Qed.

Lemma send_environment_only_logs (p : Persister) (st : gmap string bool * Trace)
    (ee : string * gmap string ProtoMessage) :
  without_logs (send_environment L p st ee).2 = without_logs st.2.
Proof.
  destruct st as [fails t], ee as [ns events]. unfold send_environment.
  assert (∀ l st, without_logs (foldl (send_event L p ns) st l).2 = without_logs st.2)
    as Hfold.
  { induction l as [|ie l IH]; intros st; [done|].
    cbn [foldl]. by rewrite IH, send_event_only_logs. }
  specialize (Hfold (range events) (∅, fails, t)).
  destruct (foldl _ _ _) as [[evs fails'] t']. simpl in Hfold.
  case_decide; [|done].
  destruct (datastore_Write p evs ns) as [fs [err|]]; simpl; [|done].
  rewrite without_logs_app. simpl. by rewrite app_nil_r.
Qed.

Lemma send_environments_only_logs (p : Persister) (l : list (string * gmap string ProtoMessage))
    (st : gmap string bool * Trace) :
  without_logs (foldl (send_environment L p) st l).2 = without_logs st.2.
Proof.
  revert st. induction l as [|ee l IH]; intros st; [done|].
  cbn [foldl]. by rewrite IH, send_environment_only_logs.
Qed.

Lemma without_logs_ack_loop (fails : gmap string bool) (l : list (string * Message)) :
  without_logs (flat_map (ack_message fails) l) = flat_map (ack_message fails) l.
Proof.
  induction l as [|[id m] l IH]; [done|].
  cbn [flat_map]. rewrite without_logs_app, IH. f_equal.
  unfold ack_message. simpl. by destruct (fails !! id) as [[]|].
Qed.

Lemma without_logs_handleBadMessage (l : list (string * Message)) :
  without_logs (flat_map (λ km, match decode L km.2 with
                                | Some _ => []
                                | None => handleBadMessage km.2
                                end) l) = bad_messages L l.
Proof.
  induction l as [|[k m] l IH]; [done|].
  unfold bad_messages. cbn [flat_map]. rewrite without_logs_app, IH. f_equal.
  simpl. by destruct (decode L m).
Qed.

(** Apart from log entries, a flush that reaches its final loop consists of
    the handling of the bad messages followed by the final loop. *)
Lemma send_without_logs (p : Persister) (messages : gmap string Message)
    (fails : gmap string bool) :
  send_fails L p messages = Some fails →
  without_logs (send L p messages) =
    bad_messages L (range messages) ++ flat_map (ack_message fails) (range messages).
Proof.
  intros Hfails.
  destruct (send_run_cases p messages)
    as [(Hnone & _) | (fails' & t & Hsome & _ & Hfold & Hsend)]; [congruence|].
  assert (fails' = fails) as -> by congruence.
  rewrite Hsend, without_logs_app, without_logs_ack_loop. f_equal.
  pose proof (send_environments_only_logs p (range (extractEvents L messages).1)
                (∅, (extractEvents L messages).2)) as Hlogs.
  rewrite Hfold in Hlogs. simpl in Hlogs. rewrite Hlogs.
  unfold extractEvents. rewrite extractEvents_fold_trace. simpl.
  apply without_logs_handleBadMessage.
Qed.

Lemma elem_of_without_logs (e : Effect) (t : Trace) :
  is_log e = false → e ∈ t → e ∈ without_logs t.
Proof. intros Hlog Hin. by apply list_elem_of_filter. Qed.

(** A Nack can only come from the final loop, for an entry the failure map
    marks repeatable. *)
Lemma send_nack_origin (p : Persister) (messages : gmap string Message)
    (fails : gmap string bool) (m : Message) :
  send_fails L p messages = Some fails →
  Nack m ∈ send L p messages →
  ∃ id, messages !! id = Some m ∧ fails !! id = Some true.
Proof.
  intros Hfails Hin. apply elem_of_without_logs in Hin; [|done].
  rewrite (send_without_logs p messages fails Hfails) in Hin.
  apply elem_of_app in Hin as [Hin|Hin].
  - exfalso. unfold bad_messages in Hin.
    apply list_elem_of_In, in_flat_map in Hin as ([k m'] & _ & Hin).
    simpl in Hin. destruct (decode L m'); [done|].
    by destruct Hin as [?|[?|[]]].
  - apply list_elem_of_In, in_flat_map in Hin as ([id m'] & Hentry & Hin).
    apply list_elem_of_In, elem_of_range in Hentry.
    exists id. unfold ack_message in Hin. simpl in Hin.
    destruct (fails !! id) as [[]|]; destruct Hin as [Heq|[Heq|[]]]; by simplify_eq.
Qed.

Lemma acks_app (m : Message) (t1 t2 : Trace) :
  acks m (t1 ++ t2) = acks m t1 + acks m t2.
Proof. unfold acks. by rewrite filter_app, length_app. Qed.

Lemma acks_without_logs (m : Message) (t : Trace) :
  acks m (without_logs t) = acks m t.
Proof.
  unfold acks, without_logs. induction t as [|e t IH]; [done|].
  rewrite !filter_cons. destruct e; simpl; repeat case_decide; simpl;
    rewrite ?filter_cons; repeat case_decide; simpl; try done; by rewrite IH.
Qed.

(** C7. A message that cannot be decoded, in a batch of which some message
    can: [extractEvents] Acks it and counts it as BadMessage, and the final
    loop of [send], which still ranges over the whole batch, handles it a
    second time; with no entry under its id in the failure map that is one
    more Ack, counted as OK. *)
Theorem send_bad_message_handled_twice (p : Persister) (messages : gmap string Message)
    (fails : gmap string bool) (id : string) (m : Message) :
  send_fails L p messages = Some fails →
  messages !! id = Some m →
  decode L m = None →
  fails !! id = None →
  (∃ t1 t2 t3,
     without_logs (send L p messages) =
       t1 ++ [Ack m; Handled BadMessage] ++ t2 ++ [Ack m; Handled OK] ++ t3) ∧
  (2 ≤ acks m (send L p messages))%nat.
Proof.
  intros Hfails Hm Hdec Hnone.
  assert (∃ t1 t2 t3,
     without_logs (send L p messages) =
       t1 ++ [Ack m; Handled BadMessage] ++ t2 ++ [Ack m; Handled OK] ++ t3)
    as (t1 & t2 & t3 & Heq).
  { rewrite (send_without_logs p messages fails Hfails).
    destruct (range_split messages id m Hm) as (before & after & -> & _ & _).
    assert (ack_message fails (id, m) = [Ack m; Handled OK]) as Hack.
    { unfold ack_message. simpl. by rewrite Hnone. }
    exists (bad_messages L before),
           (bad_messages L after ++ flat_map (ack_message fails) before),
           (flat_map (ack_message fails) after).
    unfold bad_messages. rewrite !flat_map_app. cbn [flat_map snd].
    rewrite Hdec, Hack. by rewrite <- !app_assoc. }
  split; [by exists t1, t2, t3|].
  rewrite <- acks_without_logs, Heq, !acks_app.
  assert (acks m [Ack m; Handled BadMessage] = 1) as ->.
  { unfold acks. rewrite !filter_cons. rewrite decide_True by done.
    by rewrite decide_False. }
  assert (acks m [Ack m; Handled OK] = 1) as ->.
  { unfold acks. rewrite !filter_cons. rewrite decide_True by done.
    by rewrite decide_False. }
  lia.
Qed.


End Flush.

(** ** The worker loop *)

Section Batching.

Context {R : RangeOrder} (L : Lib).

(** C3. One turn of the worker on an incoming message [msg], from the batch
    [batch]:
    - with no (or an empty) id attribute, [msg] is Acked, MissingID is
      incremented and the batch stays as it is;
    - with the id of a message [previous] already in the batch, [previous] is
      Acked, DuplicateID is incremented and [msg] takes its place: the
      batch that is kept, or flushed when it has reached the flush size, maps
      the id to [msg] and has as many entries as before. *)
Theorem batch_message_dedup (p : Persister) (batch : gmap string Message)
    (t : Trace) (msg : Message) :
  (id_attribute msg = "" →
     batch_message L p (batch, t) msg
       = (batch, t ++ [Received; Ack msg; Handled MissingID])) ∧
  (∀ previous,
     id_attribute msg ≠ "" →
     batch !! id_attribute msg = Some previous →
     let id := id_attribute msg in
     let batch' := <[id := msg]> batch in
     let dup := [Received; Ack previous;
                 Log LvlWarn "Message with duplicate id" [("id", id)];
                 Handled DuplicateID] in
     batch' !! id = Some msg ∧
     size batch' = size batch ∧
     (∀ id', id' ≠ id → batch' !! id' = batch !! id') ∧
     ((Z.of_nat (size batch') < flushSize (opts p))%Z →
        batch_message L p (batch, t) msg = (batch', t ++ dup)) ∧
     (¬ (Z.of_nat (size batch') < flushSize (opts p))%Z →
        batch_message L p (batch, t) msg
          = (∅, t ++ dup ++ send L p batch' ++ [TimerReset]))).
Proof.
  split.
  - intros Hid. unfold batch_message. rewrite decide_True by done.
    by rewrite <- app_assoc.
  - intros previous Hid Hprev id batch' dup. subst id batch' dup.
    split; [apply lookup_insert_eq|].
    split.
    { apply map_size_insert_Some. by exists previous. }
    split; [intros id' Hne; by apply lookup_insert_ne|].
    unfold batch_message. rewrite decide_False by done.
    rewrite Hprev.
    split; intros Hsz.
    + rewrite decide_True by done. by rewrite <- app_assoc.
    + rewrite decide_False by done. by rewrite <- !app_assoc.
Qed.

End Batching.

(** ** The definitions on concrete batches *)

Section Concrete.

Import Fixtures.P.

(** A single message whose datastore write fails repeatably: Nacked, one
    RepeatableError, no OK. *)
Example send_repeatable_write_failure :
  nacks (message "r" "evaluation of r")
        (send lib persister {["r" := message "r" "evaluation of r"]}) = 1 ∧
  handled RepeatableError (send lib persister {["r" := message "r" "evaluation of r"]}) = 1 ∧
  handled OK (send lib persister {["r" := message "r" "evaluation of r"]}) = 0.
Proof. repeat split; vm_compute; reflexivity. Qed.

(** A batch of bad messages only: each is Acked once and [send] returns. *)
Example send_all_messages_bad :
  send lib persister {["x" := message "x" "not a payload"]}
  = [Ack (message "x" "not a payload"); Log LvlError "bad message" [];
     Handled BadMessage; Log LvlError "all messages were bad" []].
Proof. vm_compute. reflexivity. Qed.

Lemma send_ack_policy_witness :
  send_fails lib persister batch_with_failed_write = Some {["r" := true]} ∧
  ∃ t before after,
    send lib persister batch_with_failed_write =
      t ++ flat_map (ack_message {["r" := true]}) before
        ++ [Nack (message "r" "evaluation of r"); Handled RepeatableError]
        ++ flat_map (ack_message {["r" := true]}) after.
Proof.
  assert (send_fails lib persister batch_with_failed_write = Some {["r" := true]})
    as Hfails by (vm_compute; reflexivity).
  split; [exact Hfails|].
  destruct (send_ack_policy lib persister batch_with_failed_write {["r" := true]}
              "r" (message "r" "evaluation of r") Hfails eq_refl)
    as (t & before & after & _ & _ & _ & Hsend & _ & Htrue & _).
  exists t, before, after. rewrite <- (Htrue eq_refl). exact Hsend.
Defined.

Lemma getEvaluations_selection_witness :
  getEvaluations lib persister goal_event "ns0" = ([fetched_evaluation], false, None, []).
Proof.
  destruct (getEvaluations_selection lib persister goal_event "ns0"
              [] [fetched_evaluation] (Some ErrKeyNotFound) None eq_refl eq_refl)
    as [Hbatch _].
  destruct (Hbatch eq_refl) as (_ & Hfallback & _).
  exact (Hfallback eq_refl eq_refl).
Defined.

Lemma batch_message_dedup_witness :
  batch_message lib persister
    ({["a" := message "a" "evaluation of a"]}, []) (message "a" "evaluation of r")
  = ({["a" := message "a" "evaluation of r"]},
     [Received; Ack (message "a" "evaluation of a");
      Log LvlWarn "Message with duplicate id" [("id", "a")];
      Handled DuplicateID]).
Proof.
  destruct (batch_message_dedup lib persister
              {["a" := message "a" "evaluation of a"]} []
              (message "a" "evaluation of r")) as [_ Hdup].
  destruct (Hdup (message "a" "evaluation of a")) as (_ & _ & _ & Hkeep & _).
  - vm_compute. discriminate.
  - vm_compute. reflexivity.
  - rewrite Hkeep.
    + vm_compute. reflexivity.
    + vm_compute. reflexivity.
Defined.

Lemma send_bad_message_handled_twice_witness :
  decode lib (message "x" "not a payload") = None ∧
  acks (message "x" "not a payload") (send lib persister batch_with_bad_message) = 2 ∧
  handled BadMessage (send lib persister batch_with_bad_message) = 1 ∧
  handled OK (send lib persister batch_with_bad_message) = 2 ∧
  (2 ≤ acks (message "x" "not a payload") (send lib persister batch_with_bad_message))%nat.
Proof.
  split; [vm_compute; reflexivity|].
  split; [vm_compute; reflexivity|].
  split; [vm_compute; reflexivity|].
  split; [vm_compute; reflexivity|].
  apply (send_bad_message_handled_twice lib persister batch_with_bad_message
           ∅ "x" (message "x" "not a payload")).
  - vm_compute. reflexivity.
  - vm_compute. reflexivity.
  - vm_compute. reflexivity.
  - vm_compute. reflexivity.
Defined.

Lemma persister_reports_written_records : reports_written_records persister.
Proof.
  intros evs ns. simpl. unfold write_failing_r. simpl.
  rewrite dom_fmap_L. apply dom_filter_subseteq.
Defined.



End Concrete.

End PersisterFacts.

(** * Facts about the gateway *)

Module GatewayFacts.
Import Gateway Fixtures.G.

(** ** Admission *)

(** C4. The admission check of an environment API key against the required
    role: ErrBadRole when the key's role differs from it; with the role
    matching, ErrDisabledAPIKey when the key or its environment is disabled,
    and no error when neither is. *)
Theorem checkEnvironmentAPIKey_admission (environmentAPIKey : EnvironmentAPIKey)
    (role : APIKey_Role) :
  (APIKey_Role_of (ApiKey environmentAPIKey) ≠ role →
     checkEnvironmentAPIKey environmentAPIKey role = Some ErrBadRole) ∧
  (APIKey_Role_of (ApiKey environmentAPIKey) = role →
   APIKey_Disabled (ApiKey environmentAPIKey) = true ∨
   EnvironmentDisabled environmentAPIKey = true →
     checkEnvironmentAPIKey environmentAPIKey role = Some ErrDisabledAPIKey) ∧
  (APIKey_Role_of (ApiKey environmentAPIKey) = role →
   APIKey_Disabled (ApiKey environmentAPIKey) = false →
   EnvironmentDisabled environmentAPIKey = false →
     checkEnvironmentAPIKey environmentAPIKey role = None).
Proof.
  unfold checkEnvironmentAPIKey. split; [|split].
  - intros Hrole. by rewrite decide_False.
  - intros Hrole Hdis. rewrite decide_True by done.
    destruct Hdis as [-> | ->]; [done|]. by rewrite orb_true_r.
  - intros Hrole -> ->. by rewrite decide_True.
Qed.

(** The four patterns of [TestGrpcCheckEnvironmentAPIKey]. *)
Example test_ErrBadRole :
  checkEnvironmentAPIKey (test_key APIKey_SERVICE false false) APIKey_SDK = Some ErrBadRole.
Proof. reflexivity. Qed.

Example test_environment_disabled :
  checkEnvironmentAPIKey (test_key APIKey_SDK false true) APIKey_SDK = Some ErrDisabledAPIKey.
Proof. reflexivity. Qed.

Example test_api_key_disabled :
  checkEnvironmentAPIKey (test_key APIKey_SDK true false) APIKey_SDK = Some ErrDisabledAPIKey.
Proof. reflexivity. Qed.

Example test_no_error :
  checkEnvironmentAPIKey (test_key APIKey_SDK false false) APIKey_SDK = None.
Proof. reflexivity. Qed.

Lemma checkEnvironmentAPIKey_witness :
  checkEnvironmentAPIKey (test_key APIKey_SDK true false) APIKey_SDK = Some ErrDisabledAPIKey.
Proof.
  apply (proj1 (proj2 (checkEnvironmentAPIKey_admission
                         (test_key APIKey_SDK true false) APIKey_SDK))).
  - reflexivity.
  - left. reflexivity.
Defined.

(** ** GetEvaluations *)

(** A request that passes [validateGetEvaluationsRequest]. *)
Lemma validateGetEvaluationsRequest_valid (req : GetEvaluationsRequest) (user : User) :
  Req_Tag req ≠ "" → Req_User req = Some user → User_Id user ≠ "" →
  validateGetEvaluationsRequest req = None.
Proof.
  intros Htag Huser Hid. unfold validateGetEvaluationsRequest.
  rewrite decide_False by done. rewrite Huser. by rewrite decide_False.
Qed.

(** C5 (as amended). For an admitted, valid request and a non-empty feature
    list, with [ueid] the id computed over the user and the feature list as
    fetched (not filtered by the tag): when the request carries [ueid], the
    response is FULL, carries [ueid] and has no evaluations; when it carries
    another id, or none, and the evaluation succeeds, the response is FULL and
    carries [ueid] together with the evaluations. *)
Theorem GetEvaluations_user_evaluations_id (s : grpcGatewayService) (ctx : Context)
    (req : GetEvaluationsRequest) (envAPIKey : EnvironmentAPIKey) (user : User)
    (features : list Feature) :
  checkRequest s ctx APIKey_SDK = inr envAPIKey →
  Req_Tag req ≠ "" → Req_User req = Some user → User_Id user ≠ "" →
  getFeatures s (EnvironmentNamespace envAPIKey) = inr features →
  features ≠ [] →
  let ueid := UserEvaluationsID s (User_Id user) (User_Data user) features in
  (Req_UserEvaluationsId req = ueid →
     GetEvaluations s ctx req =
       inr {| Resp_State := UserEvaluations_FULL;
              Resp_Evaluations := None;
              Resp_UserEvaluationsId := ueid |}) ∧
  (Req_UserEvaluationsId req ≠ ueid →
   ∀ evaluations,
     evaluateFeatures s features user (EnvironmentNamespace envAPIKey) (Req_Tag req)
       = inr evaluations →
     GetEvaluations s ctx req =
       inr {| Resp_State := UserEvaluations_FULL;
              Resp_Evaluations := Some evaluations;
              Resp_UserEvaluationsId := ueid |}).
Proof.
  intros Hadm Htag Huser Hid Hfeat Hne ueid.
  unfold GetEvaluations.
  rewrite Hadm, (validateGetEvaluationsRequest_valid req user Htag Huser Hid), Huser, Hfeat.
  rewrite decide_False by (by destruct features).
  fold ueid. split.
  - intros Heq. by rewrite decide_True.
  - intros Hdiff evaluations Heval. rewrite decide_False by done. by rewrite Heval.
Qed.

(** C10 (as amended). For an admitted, valid request, when the feature list
    fetched for the environment is empty, the response is FULL, has nil
    evaluations and an empty userEvaluationsId. *)
Theorem GetEvaluations_zero_feature (s : grpcGatewayService) (ctx : Context)
    (req : GetEvaluationsRequest) (envAPIKey : EnvironmentAPIKey) (user : User) :
  checkRequest s ctx APIKey_SDK = inr envAPIKey →
  Req_Tag req ≠ "" → Req_User req = Some user → User_Id user ≠ "" →
  getFeatures s (EnvironmentNamespace envAPIKey) = inr [] →
  GetEvaluations s ctx req =
    inr {| Resp_State := UserEvaluations_FULL;
           Resp_Evaluations := None;
           Resp_UserEvaluationsId := "" |}.
Proof.
  intros Hadm Htag Huser Hid Hfeat.
  unfold GetEvaluations.
  by rewrite Hadm, (validateGetEvaluationsRequest_valid req user Htag Huser Hid), Huser, Hfeat.
Qed.

(** ** RegisterEvents *)

(** What a partial function picks from a list. *)
Lemma omap_all_None {A B : Type} (f : A → option B) (l : list A) :
  (∀ x, x ∈ l → f x = None) → omap f l = [].
Proof.
  induction l as [|x l IH]; intros Hall; [done|].
  cbn. rewrite (Hall x) by left. apply IH. intros y Hy. apply Hall. by right.
Qed.

Lemma omap_single {A B : Type} (f : A → option B) (l : list A) (i : nat) (x : A) (y : B) :
  l !! i = Some x → f x = Some y →
  (∀ j x', j ≠ i → l !! j = Some x' → f x' = None) →
  omap f l = [y].
Proof.
  intros Hi Hx Hothers.
  rewrite <- (take_drop_middle l i x Hi), omap_app. cbn. rewrite Hx.
  rewrite !omap_all_None; [done| |].
  - intros x' Hin. apply list_elem_of_lookup in Hin as [j Hj].
    rewrite lookup_drop in Hj. apply (Hothers (S i + j)); [lia|done].
  - intros x' Hin. apply list_elem_of_lookup in Hin as [j Hj].
    apply lookup_take_Some in Hj as [Hj Hlt]. apply (Hothers j); [lia|done].
Qed.

(** The loop over events with non-empty ids returns the errors map: under
    an id it holds the entry of the last event of that id that has one, and
    what was there before when no event of that id has one. *)
Lemma registerEvents_loop_entries (s : grpcGatewayService) (ns : string)
    (events : list Event) (errs : gmap string RegisterEventsResponse_Error) :
  (∀ e, e ∈ events → Event_Id e ≠ "") →
  ∃ errs',
    registerEvents_loop s ns errs events = inr errs' ∧
    ∀ id, errs' !! id =
            match last (omap (entry_under s ns id) events) with
            | Some entry => Some entry
            | None => errs !! id
            end.
Proof.
  revert errs. induction events as [|event events IH]; intros errs Hids.
  - by exists errs.
  - cbn [registerEvents_loop]. rewrite decide_False by (apply Hids; left).
    set (errs1 := match registerEvent s ns event with
                  | Some e => <[Event_Id event := e]> errs
                  | None => errs
                  end).
    destruct (IH errs1) as (errs' & Hloop & Hentries).
    { intros e He. apply Hids. by right. }
    exists errs'. split; [done|]. intros id. rewrite Hentries. cbn.
    unfold entry_under at 2. unfold errs1.
    destruct (decide (Event_Id event = id)) as [<-|Hne];
      destruct (registerEvent s ns event) as [entry|]; try done.
    + rewrite last_cons. destruct (last _); [done|]. apply lookup_insert_eq.
    + destruct (last _); [done|]. by apply lookup_insert_ne.
Qed.

(** What [registerEvent] gives, case by case. *)
Lemma registerEvent_cases (s : grpcGatewayService) (ns : string) (e : Event) :
  (decodeEvent s (Event_Event e) = None →
     registerEvent s ns e = Some {| Retriable := false; Message := "Invalid message type" |}) ∧
  (∀ ee err,
     decodeEvent s (Event_Event e) = Some (InnerEvaluationEvent ee) →
     UpsertUserEvaluation s ee ns (if decide (EE_Tag ee = "") then "none" else EE_Tag ee)
       = Some err →
     registerEvent s ns e
       = Some {| Retriable := true; Message := "Failed to upsert user evaluation" |}) ∧
  (∀ ee,
     decodeEvent s (Event_Event e) = Some (InnerEvaluationEvent ee) →
     UpsertUserEvaluation s ee ns (if decide (EE_Tag ee = "") then "none" else EE_Tag ee)
       = None →
     registerEvent s ns e = None) ∧
  (∀ inner,
     decodeEvent s (Event_Event e) = Some inner →
     (∀ ee, inner ≠ InnerEvaluationEvent ee) →
     registerEvent s ns e = None).
Proof.
  unfold registerEvent. split; [|split; [|split]].
  - by intros ->.
  - by intros ee err -> ->.
  - by intros ee -> ->.
  - intros inner -> Hother. destruct inner as [| |ee|]; try done.
    by destruct (Hother ee).
Qed.

(** C6 (as amended). An admitted RegisterEvents call with a non-empty list
    of events, all with non-empty ids, returns a response and no error,
    whatever happens to the single events.  The errors map has one entry
    for an event id: every entry is the entry of an event of the call of
    that id, which is (not retriable, Invalid message type) for an event of
    unknown type and (retriable, Failed to upsert user evaluation) for an
    EvaluationEvent whose upsert fails, and an id of which some event has
    an error has an entry.  An event yields its own entry, or none when it
    has no error, under its id as soon as no other event of the call of the
    same id has an error, as when the ids of the call are distinct; an id
    none of whose events has an error, or that is not of the call, has no
    entry. *)
Theorem RegisterEvents_per_event_errors (s : grpcGatewayService) (ctx : Context)
    (req : RegisterEventsRequest) (envAPIKey : EnvironmentAPIKey) :
  checkRequest s ctx APIKey_SDK = inr envAPIKey →
  Events req ≠ [] →
  (∀ e, e ∈ Events req → Event_Id e ≠ "") →
  let ns := EnvironmentNamespace envAPIKey in
  ∃ resp,
    RegisterEvents s ctx req = inr resp ∧
    (∀ id entry,
       Errors resp !! id = Some entry →
       ∃ e, e ∈ Events req ∧ Event_Id e = id ∧
         (decodeEvent s (Event_Event e) = None ∧
          entry = {| Retriable := false; Message := "Invalid message type" |}
          ∨
          ∃ ee err,
            decodeEvent s (Event_Event e) = Some (InnerEvaluationEvent ee) ∧
            UpsertUserEvaluation s ee ns
              (if decide (EE_Tag ee = "") then "none" else EE_Tag ee) = Some err ∧
            entry = {| Retriable := true;
                       Message := "Failed to upsert user evaluation" |})) ∧
    (∀ e, e ∈ Events req → is_Some (registerEvent s ns e) →
          is_Some (Errors resp !! Event_Id e)) ∧
    (∀ i e,
       Events req !! i = Some e →
       (∀ j e', j ≠ i → Events req !! j = Some e' → Event_Id e' = Event_Id e →
                registerEvent s ns e' = None) →
       (decodeEvent s (Event_Event e) = None →
          Errors resp !! Event_Id e
            = Some {| Retriable := false; Message := "Invalid message type" |}) ∧
       (∀ ee err,
          decodeEvent s (Event_Event e) = Some (InnerEvaluationEvent ee) →
          UpsertUserEvaluation s ee ns
            (if decide (EE_Tag ee = "") then "none" else EE_Tag ee) = Some err →
          Errors resp !! Event_Id e
            = Some {| Retriable := true; Message := "Failed to upsert user evaluation" |}) ∧
       (∀ ee,
          decodeEvent s (Event_Event e) = Some (InnerEvaluationEvent ee) →
          UpsertUserEvaluation s ee ns
            (if decide (EE_Tag ee = "") then "none" else EE_Tag ee) = None →
          Errors resp !! Event_Id e = None) ∧
       (∀ inner,
          decodeEvent s (Event_Event e) = Some inner →
          (∀ ee, inner ≠ InnerEvaluationEvent ee) →
          Errors resp !! Event_Id e = None)) ∧
    (∀ id,
       (∀ e, e ∈ Events req → Event_Id e = id → registerEvent s ns e = None) →
       Errors resp !! id = None).
Proof.
  intros Hadm Hne Hids ns.
  destruct (registerEvents_loop_entries s ns (Events req) ∅ Hids)
    as (errs & Hloop & Hentries).
  assert (∀ id, errs !! id = last (omap (entry_under s ns id) (Events req))) as Hlast.
  { intros id. rewrite Hentries. destruct (last _); [done|]. apply lookup_empty. }
  assert (∀ i e, Events req !! i = Some e →
            (∀ j e', j ≠ i → Events req !! j = Some e' → Event_Id e' = Event_Id e →
                     registerEvent s ns e' = None) →
            errs !! Event_Id e = registerEvent s ns e) as Hown.
  { intros i e Hi Hothers. rewrite Hlast.
    destruct (registerEvent s ns e) as [entry|] eqn:He.
    - rewrite (omap_single _ _ i e entry Hi); [done| |].
      + unfold entry_under. by rewrite decide_True.
      + intros j e' Hj He'. unfold entry_under. case_decide; [|done].
        by apply (Hothers j).
    - rewrite omap_all_None; [done|]. intros e' Hin. unfold entry_under.
      case_decide as Hid; [|done].
      apply list_elem_of_lookup in Hin as [j Hj].
      destruct (decide (j = i)) as [->|Hji]; [congruence|].
      by apply (Hothers j). }
  exists {| Errors := errs |}. split; [|split; [|split; [|split]]].
  - unfold RegisterEvents. rewrite Hadm.
    rewrite decide_False by (by destruct (Events req)).
    unfold ns in Hloop. by rewrite Hloop.
  - intros id entry. simpl. rewrite Hlast. intros Hentry.
    apply last_Some_elem_of, list_elem_of_omap in Hentry as (e & Hin & He).
    unfold entry_under in He. case_decide as Hid; [|done].
    exists e. split; [done|]. split; [done|].
    unfold registerEvent in He.
    destruct (decodeEvent s (Event_Event e)) as [[| |ee|]|]; try done.
    + destruct (UpsertUserEvaluation s ee ns _) as [err|] eqn:Hup; [|done].
      right. exists ee, err. by simplify_eq.
    + left. by simplify_eq.
  - intros e Hin [entry He]. simpl. rewrite Hlast. apply last_is_Some.
    intros Hnil.
    assert (entry ∈ omap (entry_under s ns (Event_Id e)) (Events req)) as Helem.
    { apply list_elem_of_omap. exists e. split; [done|].
      unfold entry_under. by rewrite decide_True. }
    rewrite Hnil in Helem. by apply elem_of_nil in Helem.
  - intros i e Hi Hothers. simpl. rewrite (Hown i e Hi Hothers).
    apply registerEvent_cases.
  - intros id Hnone. simpl. rewrite Hlast, omap_all_None; [done|].
    intros e Hin. unfold entry_under. case_decide; [|done]. by apply Hnone.
Qed.

(** ** The patterns of the gateway's tests *)

(** [TestGrpcGetEvaluationsContextCanceled]. *)
Example test_context_canceled :
  GetEvaluations (service []) {| canceled := true; authorization := [] |}
    {| Req_Tag := EmptyString; Req_User := None; Req_UserEvaluationsId := EmptyString |}
  = inl ErrContextCanceled.
Proof. reflexivity. Qed.

Example test_missing_API_key :
  GetEvaluations (service []) {| canceled := false; authorization := [] |}
    {| Req_Tag := EmptyString; Req_User := None; Req_UserEvaluationsId := EmptyString |}
  = inl ErrMissingAPIKey.
Proof. reflexivity. Qed.

(** [TestGrpcGetEvaluationsValidation]. *)
Example test_missing_tag :
  GetEvaluations (service []) context
    {| Req_Tag := EmptyString; Req_User := Some user; Req_UserEvaluationsId := EmptyString |}
  = inl ErrTagRequired.
Proof. reflexivity. Qed.

Example test_missing_user :
  GetEvaluations (service []) context
    {| Req_Tag := "test"; Req_User := None; Req_UserEvaluationsId := EmptyString |}
  = inl ErrUserRequired.
Proof. reflexivity. Qed.

(** [TestGrpcGetEvaluationsZeroFeature]. *)
Example test_zero_feature :
  GetEvaluations (service []) context (request EmptyString)
  = inr {| Resp_State := UserEvaluations_FULL;
           Resp_Evaluations := None;
           Resp_UserEvaluationsId := EmptyString |}.
Proof. reflexivity. Qed.

(** [TestGrpcGetEvaluationsUserEvaluationsID]: the request asks for the tag
    test, the features are tagged android, ios and web. *)
Example test_user_evaluations_id_is_the_same :
  GetEvaluations (service multiFeatures) context
    (request (fingerprint "user-id-0" ∅ multiFeatures))
  = inr {| Resp_State := UserEvaluations_FULL;
           Resp_Evaluations := None;
           Resp_UserEvaluationsId := fingerprint "user-id-0" ∅ multiFeatures |}.
Proof. vm_compute. reflexivity. Qed.

Example test_user_evaluations_id_is_different :
  GetEvaluations (service [android_feature]) context (request "evaluation-id")
  = inr {| Resp_State := UserEvaluations_FULL;
           Resp_Evaluations := Some {| Evaluations := [] |};
           Resp_UserEvaluationsId := fingerprint "user-id-0" ∅ [android_feature] |}.
Proof. vm_compute. reflexivity. Qed.

(** [TestGrcpRegisterEvents]. *)
Example test_zero_event :
  RegisterEvents (service []) context {| Events := [] |} = inl ErrMissingEvents.
Proof. reflexivity. Qed.

Example test_ErrMissingEventID :
  RegisterEvents (service []) context {| Events := [event EmptyString "GoalEvent"] |}
  = inl ErrMissingEventID.
Proof. reflexivity. Qed.

Example test_invalid_message_type :
  RegisterEvents (service []) context {| Events := [event "uuid0" "Any"] |}
  = inr {| Errors :=
             {["uuid0" := {| Retriable := false; Message := "Invalid message type" |}]} |}.
Proof. vm_compute. reflexivity. Qed.

Example test_upsert_error :
  RegisterEvents (service []) context
    {| Events := [event "uuid0" "GoalEvent"; event "uuid1" "EvaluationEvent";
                  event "uuid2" "MetricsEvent"; event "uuid3" "GoalBatchEvent"] |}
  = inr {| Errors :=
             {["uuid1" := {| Retriable := true;
                             Message := "Failed to upsert user evaluation" |}]} |}.
Proof. vm_compute. reflexivity. Qed.

Example test_success :
  RegisterEvents (service_with [] None) context
    {| Events := [event "uuid0" "GoalEvent"; event "uuid1" "EvaluationEvent";
                  event "uuid2" "MetricsEvent"; event "uuid3" "GoalBatchEvent"] |}
  = inr {| Errors := ∅ |}.
Proof. vm_compute. reflexivity. Qed.

(** ** The definitions on concrete requests *)

Lemma GetEvaluations_user_evaluations_id_witness :
  GetEvaluations (service [android_feature]) context (request "user-id-0:feature-a") =
    inr {| Resp_State := UserEvaluations_FULL;
           Resp_Evaluations := None;
           Resp_UserEvaluationsId := "user-id-0:feature-a" |}.
Proof.
  destruct (GetEvaluations_user_evaluations_id (service [android_feature]) context
              (request "user-id-0:feature-a") sdk_key user [android_feature])
    as [Hsame _].
  - reflexivity.
  - discriminate.
  - reflexivity.
  - discriminate.
  - reflexivity.
  - discriminate.
  - apply Hsame. reflexivity.
Defined.

(** C5, as it was stated, on the input of the test "user evaluations id not
    set" with the id computed over the tag-filtered features in the request:
    no feature carries the tag test, the request carries the id of the empty
    selection, and the response still brings evaluations and another id, the
    one computed over the whole feature list. *)
Lemma GetEvaluations_id_not_over_tag_filtered_features :
  filter_by_tag "test" [android_feature] = [] ∧
  Req_UserEvaluationsId (request "user-id-0")
    = UserEvaluationsID (service [android_feature]) (User_Id user) (User_Data user)
        (filter_by_tag (Req_Tag (request "user-id-0")) [android_feature]) ∧
  GetEvaluations (service [android_feature]) context (request "user-id-0") =
    inr {| Resp_State := UserEvaluations_FULL;
           Resp_Evaluations := Some {| Evaluations := [] |};
           Resp_UserEvaluationsId := "user-id-0:feature-a" |}.
Proof. repeat split; vm_compute; reflexivity. Qed.

Lemma GetEvaluations_zero_feature_witness :
  GetEvaluations (service []) context (request EmptyString) =
    inr {| Resp_State := UserEvaluations_FULL;
           Resp_Evaluations := None;
           Resp_UserEvaluationsId := EmptyString |}.
Proof.
  apply (GetEvaluations_zero_feature (service []) context (request EmptyString)
           sdk_key user); try reflexivity; discriminate.
Defined.

(** C10, as it was stated, on the input of the test "user evaluations id not
    set": the features are tagged android and the request asks for the tag
    test, so the tag-filtered feature set is empty; the response has
    evaluations that are not nil and a userEvaluationsId that is not empty. *)
Lemma GetEvaluations_empty_selection_not_short_circuited :
  filter_by_tag (Req_Tag (request EmptyString)) [android_feature] = [] ∧
  GetEvaluations (service [android_feature]) context (request EmptyString) =
    inr {| Resp_State := UserEvaluations_FULL;
           Resp_Evaluations := Some {| Evaluations := [] |};
           Resp_UserEvaluationsId := "user-id-0:feature-a" |}.
Proof. repeat split; vm_compute; reflexivity. Qed.

Lemma RegisterEvents_per_event_errors_witness :
  ∃ resp,
    RegisterEvents (service []) context
      {| Events := [event "uuid0" "GoalEvent"; event "uuid0" "Any";
                    event "uuid1" "EvaluationEvent"] |} = inr resp ∧
    Errors resp !! "uuid0"
      = Some {| Retriable := false; Message := "Invalid message type" |} ∧
    Errors resp !! "uuid1"
      = Some {| Retriable := true; Message := "Failed to upsert user evaluation" |}.
Proof.
  destruct (RegisterEvents_per_event_errors (service []) context
              {| Events := [event "uuid0" "GoalEvent"; event "uuid0" "Any";
                            event "uuid1" "EvaluationEvent"] |} sdk_key)
    as (resp & Hcall & _ & _ & Hentries & _).
  - reflexivity.
  - discriminate.
  - apply Forall_forall. apply (bool_decide_unpack _). vm_compute. exact I.
  - exists resp. split; [exact Hcall|]. split.
    + destruct (Hentries 1%nat (event "uuid0" "Any")) as (Hunknown & _).
      * reflexivity.
      * intros [|[|[|j]]] e' Hj He' Hid; simpl in He'; simplify_eq; try done.
      * apply Hunknown. reflexivity.
    + destruct (Hentries 2%nat (event "uuid1" "EvaluationEvent")) as (_ & Hupsert & _).
      * reflexivity.
      * intros [|[|[|j]]] e' Hj He' Hid; simpl in He'; simplify_eq; try done.
      * apply (Hupsert Fixtures.P.evaluation_event ErrInternal); reflexivity.
Defined.

(** C6, as it was stated, on a call that gives one id to an event of unknown
    type and to an EvaluationEvent whose upsert fails: the map has one entry
    under that id, the one of the later event, and the event of unknown
    type is left without its entry. *)
Lemma RegisterEvents_repeated_id_one_entry :
  decodeEvent (service []) (Event_Event (event "uuid0" "Any")) = None ∧
  decodeEvent (service []) (Event_Event (event "uuid0" "EvaluationEvent"))
    = Some (InnerEvaluationEvent Fixtures.P.evaluation_event) ∧
  UpsertUserEvaluation (service []) Fixtures.P.evaluation_event "ns0" "ios"
    = Some ErrInternal ∧
  RegisterEvents (service []) context
    {| Events := [event "uuid0" "Any"; event "uuid0" "EvaluationEvent"] |}
  = inr {| Errors :=
             {["uuid0" := {| Retriable := true;
                             Message := "Failed to upsert user evaluation" |}]} |}.
Proof. repeat split; vm_compute; reflexivity. Qed.

End GatewayFacts.

(** * More facts about the flush *)

Module FlushFacts.
Import Persister PersisterFacts Flush.

Section Verdict.

Context {R : RangeOrder} (L : Lib).

Lemma merge_fails_union (fails fs : gmap string bool) :
  merge_fails fails fs = fs ∪ fails.
Proof.
  apply map_eq. intros k. destruct (fs !! k) as [f|] eqn:Hk.
  - rewrite (lookup_union_Some_l _ _ _ _ Hk). unfold merge_fails.
    destruct (range_split fs k f Hk) as (before & after & -> & _ & Ha).
    rewrite foldl_app. cbn [foldl].
    apply (foldl_other_keys (λ m : gmap string bool, m !! k = Some f) _ k); [|done|].
    + intros a k' b _ Hne Hlook. simpl. by rewrite lookup_insert_ne.
    + simpl. apply lookup_insert_eq.
  - rewrite merge_fails_other by done. by rewrite lookup_union_r.
Qed.

Lemma marshalled_or_failure (p : Persister) (ns : string) (event : ProtoMessage) :
  (∃ eventJSON, marshalled L p ns event = Some eventJSON ∧ marshal_failure L p ns event = None) ∨
  (∃ repeatable, marshalled L p ns event = None ∧ marshal_failure L p ns event = Some repeatable).
Proof.
  unfold marshalled, marshal_failure.
  destruct (marshalEvent L p event ns) as [[[eventJSON repeatable] [err|]] t]; eauto.
Qed.

(** The iteration for the event [k] itself. *)
Lemma send_event_at (p : Persister) (ns : string)
    (st : gmap string string * gmap string bool * Trace) (k : string) (event : ProtoMessage) :
  (send_event L p ns st (k, event)).1.1 !! k =
    match marshalled L p ns event with Some j => Some j | None => st.1.1 !! k end ∧
  (send_event L p ns st (k, event)).1.2 !! k =
    match marshal_failure L p ns event with Some r => Some r | None => st.1.2 !! k end.
Proof.
  destruct st as [[evs fails] t]. unfold send_event, marshalled, marshal_failure.
  destruct (marshalEvent L p event ns) as [[[eventJSON repeatable] [err|]] tm]; simpl.
  - split; [done|]. apply lookup_insert_eq.
  - split; [|done]. apply lookup_insert_eq.
Qed.

(** The loop over the events of one environment, in closed form. *)
Lemma send_events_fold (p : Persister) (ns : string) (events : gmap string ProtoMessage)
    (fails : gmap string bool) (t : Trace) :
  (foldl (send_event L p ns) ((∅ : gmap string string), fails, t) (range events)).1
  = (omap (marshalled L p ns) events, omap (marshal_failure L p ns) events ∪ fails).
Proof.
  set (st0 := ((∅ : gmap string string), fails, t)).
  assert (∀ k,
    (foldl (send_event L p ns) st0 (range events)).1.1 !! k
      = omap (marshalled L p ns) events !! k ∧
    (foldl (send_event L p ns) st0 (range events)).1.2 !! k
      = (omap (marshal_failure L p ns) events ∪ fails) !! k) as Hkeys.
  { intros k. rewrite lookup_union, !lookup_omap.
    destruct (events !! k) as [event|] eqn:Hk; simpl.
    - destruct (range_split events k event Hk) as (before & after & -> & Hb & Ha).
      rewrite foldl_app. cbn [foldl].
      set (st1 := foldl (send_event L p ns) st0 before).
      assert (st1.1.1 !! k = None ∧ st1.1.2 !! k = fails !! k) as [Hevs Hfails].
      { apply (foldl_other_keys
          (λ st : gmap string string * gmap string bool * Trace,
             st.1.1 !! k = None ∧ st.1.2 !! k = fails !! k) _ k); [|done|done].
        intros st k' event' _ Hne [? ?].
        by destruct (send_event_other L p ns st k' event' k Hne) as [-> ->]. }
      destruct (send_event_at p ns st1 k event) as [Hevs1 Hfails1].
      rewrite Hevs in Hevs1. rewrite Hfails in Hfails1.
      apply (foldl_other_keys
        (λ st : gmap string string * gmap string bool * Trace,
           st.1.1 !! k = marshalled L p ns event ∧
           st.1.2 !! k = union_with (λ x _, Some x) (marshal_failure L p ns event) (fails !! k))
        _ k); [|done|].
      + intros st k' event' _ Hne [? ?].
        by destruct (send_event_other L p ns st k' event' k Hne) as [-> ->].
      + rewrite Hevs1, Hfails1.
        by destruct (marshalled L p ns event), (marshal_failure L p ns event),
             (fails !! k).
    - apply (foldl_other_keys
        (λ st : gmap string string * gmap string bool * Trace,
           st.1.1 !! k = None ∧
           st.1.2 !! k = union_with (λ x _, Some x) None (fails !! k)) _ k).
      + intros st k' event' _ Hne [? ?].
        by destruct (send_event_other L p ns st k' event' k Hne) as [-> ->].
      + by apply not_elem_of_range_fst.
      + simpl. split; [done|]. by destruct (fails !! k). }
  destruct (foldl _ _ _) as [[evs fails'] t']. simpl in *.
  f_equal; apply map_eq; intros k; by destruct (Hkeys k).
Qed.

(** One iteration of the loop over the environments, in closed form: the
    order in which the events are visited does not show. *)
Lemma send_environment_eq (p : Persister) (fails : gmap string bool) (t : Trace)
    (ns : string) (events : gmap string ProtoMessage) :
  (send_environment L p (fails, t) (ns, events)).1 = environment_fails L p ns events fails.
Proof.
  unfold send_environment, environment_fails.
  pose proof (send_events_fold p ns events fails t) as Hfold.
  destruct (foldl _ _ _) as [[evs fails'] t']. simpl in Hfold.
  injection Hfold as -> ->.
  case_decide; [|done].
  destruct (datastore_Write p _ ns) as [fs [err|]]; simpl; apply merge_fails_union.
Qed.

Lemma foldl_invariant {A B : Type} (P : A → Prop) (f : A → B → A) (l : list B) (a : A) :
  (∀ a b, b ∈ l → P a → P (f a b)) → P a → P (foldl f a l).
Proof.
  revert a. induction l as [|b l IH]; intros a Hstep Ha; [done|].
  cbn [foldl]. apply IH.
  - intros a' b' Hin. apply Hstep. by right.
  - apply Hstep; [left|done].
Qed.

(** With every message under its own event id, [extractEvents] holds for
    the environment [ns] and the id [k] the payload of message [k], if that
    message decodes into [ns]. *)
Lemma extractEvents_lookup (messages : gmap string Message) (ns k : string) :
  carries_own_id L messages →
  lookup_event (extractEvents L messages).1 ns k = messages !! k ≫= event_in L ns.
Proof.
  intros Hown.
  destruct (lookup_event (extractEvents L messages).1 ns k) as [inner|] eqn:Hlook.
  - unfold extractEvents in Hlook.
    apply extractEvents_fold_origin in Hlook
      as [Hlook|(k' & m & event & Hin & Hdec & Hns & Hid)].
    + unfold lookup_event in Hlook. simpl in Hlook. by rewrite lookup_empty in Hlook.
    + apply elem_of_range in Hin.
      assert (k' = k) as -> by (by rewrite <- (Hown k' m event inner Hin Hdec)).
      rewrite Hin. simpl. unfold event_in. rewrite Hdec. by rewrite decide_True.
  - destruct (messages !! k) as [m|] eqn:Hm; [|done]. simpl.
    unfold event_in. destruct (decode L m) as [[event inner]|] eqn:Hdec; [|done].
    case_decide as Hns; [|done]. exfalso.
    destruct (extractEvents_fold_present L (range messages) (∅, []) ns k) as [x Hx].
    + right. exists k, m, event, inner.
      split; [by apply elem_of_range|]. split; [done|]. split; [done|].
      by apply (Hown k m event inner).
    + unfold extractEvents in Hlook. congruence.
Qed.

Lemma extractEvents_environment (messages : gmap string Message) (ns : string)
    (events : gmap string ProtoMessage) :
  carries_own_id L messages →
  (extractEvents L messages).1 !! ns = Some events →
  events = omap (event_in L ns) messages.
Proof.
  intros Hown Hns. apply map_eq. intros k. rewrite lookup_omap.
  rewrite <- (extractEvents_lookup messages ns k Hown).
  unfold lookup_event. by rewrite Hns.
Qed.

Lemma written_environment (p : Persister) (messages : gmap string Message) (ns : string) :
  omap (marshalled L p ns) (omap (event_in L ns) messages) = written L p messages ns.
Proof.
  apply map_eq. intros k. unfold written. rewrite !lookup_omap.
  by destruct (messages !! k).
Qed.

(** The failure map of a flush, key by key. *)
Lemma send_fails_verdict (p : Persister) (messages : gmap string Message)
    (fails : gmap string bool) (k : string) :
  carries_own_id L messages →
  reports_written_records p →
  send_fails L p messages = Some fails →
  fails !! k = verdict L p messages k.
Proof.
  intros Hown Hsink Hfails.
  destruct (send_run_cases L p messages)
    as [(Hnone & _) | (fails' & t & Hsome & _ & Hfold & _)]; [congruence|].
  assert (fails' = fails) as -> by congruence.
  set (envEvents := (extractEvents L messages).1) in *.
  assert (∀ ns events, (ns, events) ∈ range envEvents →
            events !! k = messages !! k ≫= event_in L ns) as Hevents.
  { intros ns events Hin. apply elem_of_range in Hin.
    rewrite <- (extractEvents_lookup messages ns k Hown).
    unfold lookup_event. fold envEvents. by rewrite Hin. }
  unfold verdict.
  destruct (messages !! k) as [m|] eqn:Hm; simpl;
    [destruct (decode L m) as [[event inner]|] eqn:Hdec|].
  - (* the message of [k] decodes, into the environment [ns0] *)
    set (ns0 := Event_EnvironmentNamespace event) in *.
    assert (lookup_event envEvents ns0 k = Some inner) as Hlook.
    { unfold envEvents. rewrite (extractEvents_lookup messages ns0 k Hown), Hm. simpl.
      unfold event_in. rewrite Hdec. by rewrite decide_True. }
    apply lookup_event_Some in Hlook as (events0 & Hns0 & Hk0).
    pose proof (extractEvents_environment messages ns0 events0 Hown Hns0) as Hevents0.
    assert (∀ ns events, (ns, events) ∈ range envEvents → ns ≠ ns0 → events !! k = None)
      as Hother.
    { intros ns events Hin Hne. rewrite (Hevents ns events Hin). simpl.
      unfold event_in. rewrite Hdec. by rewrite decide_False. }
    destruct (range_split envEvents ns0 events0 Hns0) as (before & after & Heq & Hb & Ha).
    rewrite Heq in Hother.
    rewrite Heq, foldl_app in Hfold. cbn [foldl] in Hfold.
    replace fails with
      (foldl (send_environment L p)
         (send_environment L p
            (foldl (send_environment L p) (∅, (extractEvents L messages).2) before)
            (ns0, events0)) after).1 by (by rewrite Hfold).
    apply (foldl_other_keys (λ st : gmap string bool * Trace, st.1 !! k = _) _ ns0);
      [|done|].
    + intros [fails' t'] ns events Hin Hne Hst. cbv beta in Hst |- *.
      rewrite (send_environment_other L p fails' t' ns events k Hsink); [done|].
      apply (Hother ns); [|done]. apply elem_of_app. right. by right.
    + assert ((foldl (send_environment L p) (∅, (extractEvents L messages).2) before).1 !! k
              = None) as Hbefore.
      { apply (foldl_other_keys (λ st : gmap string bool * Trace, st.1 !! k = None) _ ns0);
          [|done|done].
        intros [fails' t'] ns events Hin Hne Hst. cbv beta in Hst |- *.
        rewrite (send_environment_other L p fails' t' ns events k Hsink); [done|].
        apply (Hother ns); [|done]. apply elem_of_app. by left. }
      destruct (foldl (send_environment L p) _ before) as [fails1 t1]. simpl in Hbefore.
      rewrite send_environment_eq. unfold environment_fails.
      rewrite Hevents0, written_environment.
      assert ((omap (marshal_failure L p ns0) (omap (event_in L ns0) messages) ∪ fails1) !! k
              = marshal_failure L p ns0 inner) as Hfailure.
      { rewrite lookup_union, lookup_omap, <- Hevents0, Hk0, Hbefore. simpl.
        by destruct (marshal_failure L p ns0 inner). }
      assert (written L p messages ns0 !! k = marshalled L p ns0 inner) as Hwritten.
      { rewrite <- written_environment, lookup_omap, <- Hevents0, Hk0. done. }
      pose proof (Hsink (written L p messages ns0) ns0) as Hdom.
      destruct (marshalled_or_failure p ns0 inner)
        as [(json & Hjson & Hnofail)|(r & Hnojson & Hfail)].
      * rewrite Hnofail in Hfailure |- *. rewrite Hjson in Hwritten.
        rewrite decide_True.
        -- rewrite lookup_union, Hfailure.
           by destruct ((datastore_Write p (written L p messages ns0) ns0).1 !! k).
        -- assert (size (written L p messages ns0) ≠ 0); [|lia].
           apply (map_size_ne_0_lookup_2 _ k). by rewrite Hwritten.
      * rewrite Hfail in Hfailure |- *. rewrite Hnojson in Hwritten.
        case_decide; [|done].
        rewrite lookup_union_r; [done|].
        apply not_elem_of_dom. apply not_elem_of_dom in Hwritten. set_solver.
  - (* it does not decode *)
    replace fails with
      (foldl (send_environment L p) (∅, (extractEvents L messages).2) (range envEvents)).1
      by (by rewrite Hfold).
    apply (foldl_invariant (λ st : gmap string bool * Trace, st.1 !! k = None)); [|done].
    intros [fails' t'] [ns events] Hin Hst. cbv beta in Hst |- *.
    rewrite (send_environment_other L p fails' t' ns events k Hsink); [done|].
    rewrite (Hevents ns events Hin). simpl. unfold event_in. by rewrite Hdec.
  - (* there is no message under [k] *)
    replace fails with
      (foldl (send_environment L p) (∅, (extractEvents L messages).2) (range envEvents)).1
      by (by rewrite Hfold).
    apply (foldl_invariant (λ st : gmap string bool * Trace, st.1 !! k = None)); [|done].
    intros [fails' t'] [ns events] Hin Hst. cbv beta in Hst |- *.
    rewrite (send_environment_other L p fails' t' ns events k Hsink); [done|].
    by rewrite (Hevents ns events Hin).
Qed.

End Verdict.

(** ** What a flush does with a message, by what the message is *)

Section Dispositions.

Context {R : RangeOrder} (L : Lib).

(** A flush with a message that decodes gets as far as its failure map. *)
Lemma send_fails_decodable (p : Persister) (messages : gmap string Message)
    (k : string) (m : Message) (event : Event) (inner : ProtoMessage) :
  messages !! k = Some m → decode L m = Some (event, inner) →
  ∃ fails, send_fails L p messages = Some fails.
Proof.
  intros Hm Hdec.
  destruct (send_run_cases L p messages)
    as [(_ & Hempty & _) | (fails & _ & Hsome & _)]; [|by exists fails].
  destruct (extractEvents_fold_present L (range messages) (∅, [])
              (Event_EnvironmentNamespace event) (Event_Id event)) as [x Hx].
  - right. exists k, m, event, inner. split; [by apply elem_of_range|done].
  - unfold extractEvents in Hempty. rewrite Hempty in Hx.
    unfold lookup_event in Hx. by rewrite lookup_empty in Hx.
Qed.

(** The body of the final loop for the message of [k], as part of the trace. *)
Lemma send_disposition (p : Persister) (messages : gmap string Message)
    (fails : gmap string bool) (k : string) (m : Message) :
  send_fails L p messages = Some fails →
  messages !! k = Some m →
  ∃ t1 t2, send L p messages = t1 ++ ack_message fails (k, m) ++ t2.
Proof.
  intros Hfails Hm.
  destruct (send_final_loop L p messages fails k m Hfails Hm)
    as (t & before & after & _ & _ & _ & Hsend).
  exists (t ++ flat_map (ack_message fails) before), (flat_map (ack_message fails) after).
  rewrite Hsend. by rewrite <- app_assoc.
Qed.

(** A Nack of [m] comes from the entry of [m] in the failure map. *)
Lemma send_not_nacked (p : Persister) (messages : gmap string Message)
    (fails : gmap string bool) (k : string) (m : Message) (event : Event)
    (inner : ProtoMessage) :
  carries_own_id L messages →
  send_fails L p messages = Some fails →
  messages !! k = Some m → decode L m = Some (event, inner) →
  fails !! k ≠ Some true →
  Nack m ∉ send L p messages.
Proof.
  intros Hown Hfails Hm Hdec Hk Hnack.
  destruct (send_nack_origin L p messages fails m Hfails Hnack) as (k' & Hm' & Htrue).
  assert (k' = k) as ->; [|done].
  by rewrite <- (Hown k' m event inner Hm' Hdec), <- (Hown k m event inner Hm Hdec).
Qed.

(** X1. A goal event whose lookup of stored evaluations fails with an error
    other than KeyNotFound (source GOAL_BATCH, or any source with a tag) is
    left for redelivery: with every message of the batch under its own event
    id and a datastore that reports only on records it was given, the
    message is Nacked and counted as RepeatableError. *)
Theorem send_goal_event_storage_error (p : Persister) (messages : gmap string Message)
    (k : string) (m : Message) (event : Event) (e : GoalEvent)
    (stored : list Evaluation) (err : error) :
  carries_own_id L messages →
  reports_written_records p →
  messages !! k = Some m →
  decode L m = Some (event, MsgGoalEvent e) →
  GE_SourceId e = SourceId_GOAL_BATCH ∨ GE_Tag e ≠ "" →
  userEvaluationStorage_GetUserEvaluations p (GE_UserId e)
    (Event_EnvironmentNamespace event) (GE_Tag e) = (stored, Some err) →
  err ≠ ErrKeyNotFound →
  ∃ fails t1 t2,
    send_fails L p messages = Some fails ∧
    fails !! k = Some true ∧
    send L p messages = t1 ++ [Nack m; Handled RepeatableError] ++ t2.
Proof.
  intros Hown Hsink Hm Hdec Hsrc Hst Herr.
  destruct (send_fails_decodable p messages k m event _ Hm Hdec) as [fails Hfails].
  assert (fails !! k = Some true) as Hk.
  { rewrite (send_fails_verdict L p messages fails k Hown Hsink Hfails).
    unfold verdict. rewrite Hm. simpl. rewrite Hdec.
    assert (marshal_failure L p (Event_EnvironmentNamespace event) (MsgGoalEvent e)
            = Some true) as ->; [|done].
    unfold marshal_failure. simpl. unfold marshalGoalEvent, getEvaluations.
    rewrite (getCurrentUserEvaluations_err _ _ _ _ _ _ Hst).
    destruct Hsrc as [Hbatch|Htag].
    - rewrite decide_True by done. by rewrite decide_False.
    - destruct (decide (GE_SourceId e = SourceId_GOAL_BATCH)).
      + by rewrite decide_False.
      + rewrite decide_False by done. by rewrite decide_False. }
  exists fails.
  destruct (send_disposition p messages fails k m Hfails Hm) as (t1 & t2 & Hsend).
  exists t1, t2. split; [done|]. split; [done|].
  rewrite Hsend. unfold ack_message. simpl. by rewrite Hk.
Qed.

(** X2. A goal event of source GOAL_BATCH with no stored evaluations, for
    which the fallback call of EvaluateFeatures fails, is not retried: under
    the same two conditions the message is Acked, counted as
    NonRepeatableError, and never Nacked. *)
Theorem send_goal_batch_fallback_error (p : Persister) (messages : gmap string Message)
    (k : string) (m : Message) (event : Event) (e : GoalEvent)
    (stored fetched : list Evaluation) (err : error) :
  carries_own_id L messages →
  reports_written_records p →
  messages !! k = Some m →
  decode L m = Some (event, MsgGoalEvent e) →
  GE_SourceId e = SourceId_GOAL_BATCH →
  userEvaluationStorage_GetUserEvaluations p (GE_UserId e)
    (Event_EnvironmentNamespace event) (GE_Tag e) = (stored, Some ErrKeyNotFound) →
  featureClient_EvaluateFeatures p (GE_User e)
    (Event_EnvironmentNamespace event) (GE_Tag e) = (fetched, Some err) →
  ∃ fails t1 t2,
    send_fails L p messages = Some fails ∧
    fails !! k = Some false ∧
    send L p messages = t1 ++ [Ack m; Handled NonRepeatableError] ++ t2 ∧
    Nack m ∉ send L p messages.
Proof.
  intros Hown Hsink Hm Hdec Hsrc Hst Hrpc.
  destruct (send_fails_decodable p messages k m event _ Hm Hdec) as [fails Hfails].
  assert (fails !! k = Some false) as Hk.
  { rewrite (send_fails_verdict L p messages fails k Hown Hsink Hfails).
    unfold verdict. rewrite Hm. simpl. rewrite Hdec.
    assert (marshal_failure L p (Event_EnvironmentNamespace event) (MsgGoalEvent e)
            = Some false) as ->; [|done].
    unfold marshal_failure. simpl. unfold marshalGoalEvent, getEvaluations.
    rewrite (getCurrentUserEvaluations_err _ _ _ _ _ _ Hst).
    rewrite !decide_True by done. by rewrite Hrpc. }
  exists fails.
  destruct (send_disposition p messages fails k m Hfails Hm) as (t1 & t2 & Hsend).
  exists t1, t2. split; [done|]. split; [done|]. split.
  - rewrite Hsend. unfold ack_message. simpl. by rewrite Hk.
  - apply (send_not_nacked p messages fails k m event _ Hown Hfails Hm Hdec).
    by rewrite Hk.
Qed.

(** X3. A message whose event is marshalled is handed to the datastore with
    the other records of its environment, and what the datastore reports
    for it decides: no report, Ack and OK; repeatable, Nack and
    RepeatableError; not repeatable, Ack and NonRepeatableError.  This holds
    with every message of the batch under its own event id and a datastore
    that reports only on records it was given. *)
Theorem send_datastore_verdict (p : Persister) (messages : gmap string Message)
    (k : string) (m : Message) (event : Event) (inner : ProtoMessage) (eventJSON : string) :
  carries_own_id L messages →
  reports_written_records p →
  messages !! k = Some m →
  decode L m = Some (event, inner) →
  marshalled L p (Event_EnvironmentNamespace event) inner = Some eventJSON →
  let ns := Event_EnvironmentNamespace event in
  let evs := written L p messages ns in
  let report := (datastore_Write p evs ns).1 !! k in
  evs !! k = Some eventJSON ∧
  ∃ fails t1 t2,
    send_fails L p messages = Some fails ∧
    fails !! k = report ∧
    send L p messages =
      t1 ++ match report with
            | None => [Ack m; Handled OK]
            | Some true => [Nack m; Handled RepeatableError]
            | Some false => [Ack m; Handled NonRepeatableError]
            end ++ t2.
Proof.
  intros Hown Hsink Hm Hdec Hjson ns evs report. subst report evs ns.
  split.
  { unfold written. rewrite lookup_omap, Hm. simpl.
    unfold event_in. rewrite Hdec. by rewrite decide_True. }
  destruct (send_fails_decodable p messages k m event _ Hm Hdec) as [fails Hfails].
  assert (fails !! k =
          (datastore_Write p (written L p messages (Event_EnvironmentNamespace event))
             (Event_EnvironmentNamespace event)).1 !! k) as Hk.
  { rewrite (send_fails_verdict L p messages fails k Hown Hsink Hfails).
    unfold verdict. rewrite Hm. simpl. rewrite Hdec.
    destruct (marshalled_or_failure L p (Event_EnvironmentNamespace event) inner)
      as [(j & _ & ->)|(r & Hno & _)]; [done|].
    congruence. }
  exists fails.
  destruct (send_disposition p messages fails k m Hfails Hm) as (t1 & t2 & Hsend).
  exists t1, t2. split; [done|]. split; [done|].
  rewrite Hsend. unfold ack_message. simpl. by rewrite Hk.
Qed.

End Dispositions.

(** ** Counters *)

Section Counters.

Context {R : RangeOrder} (L : Lib).

Lemma handled_app (c : Code) (t1 t2 : Trace) :
  handled c (t1 ++ t2) = handled c t1 + handled c t2.
Proof. unfold handled. by rewrite filter_app, length_app. Qed.

Lemma nacks_without_logs (m : Message) (t : Trace) :
  nacks m (without_logs t) = nacks m t.
Proof.
  unfold nacks, without_logs. induction t as [|e t IH]; [done|].
  rewrite !filter_cons. destruct e; simpl; repeat case_decide; simpl;
    rewrite ?filter_cons; repeat case_decide; simpl; try done; by rewrite IH.
Qed.

Lemma handled_without_logs (c : Code) (t : Trace) :
  handled c (without_logs t) = handled c t.
Proof.
  unfold handled, without_logs. induction t as [|e t IH]; [done|].
  rewrite !filter_cons. destruct e; simpl; repeat case_decide; simpl;
    rewrite ?filter_cons; repeat case_decide; simpl; try done; by rewrite IH.
Qed.

(** The entries of a map that satisfy [P], counted along an iteration. *)
Lemma length_filter_range {V : Type} (P : string * V → Prop) `{!∀ kv, Decision (P kv)}
    (m : gmap string V) :
  length (filter P (range m)) = size (filter P m).
Proof.
  rewrite <- length_map_to_list. apply Permutation_length.
  apply NoDup_Permutation.
  - apply NoDup_filter. eapply NoDup_fmap_1, (NoDup_fst_range m).
  - apply NoDup_map_to_list.
  - intros [k v]. rewrite list_elem_of_filter, elem_of_range, elem_of_map_to_list.
    rewrite map_lookup_filter_Some. tauto.
Qed.

Lemma handled_bad_messages (c : Code) (l : list (string * Message)) :
  handled c (bad_messages L l) =
    if decide (c = BadMessage)
    then length (filter (λ km, decode L km.2 = None) l) else 0.
Proof.
  unfold bad_messages. induction l as [|[k m] l IH].
  - by case_decide.
  - cbn [flat_map]. rewrite handled_app, IH, filter_cons. simpl.
    destruct (decode L m) as [x|] eqn:Hdec.
    + rewrite (decide_False (P := Some x = None)) by done. done.
    + rewrite (decide_True (P := None = None)) by done.
      unfold handled. rewrite !filter_cons.
      rewrite (decide_False (P := Ack m = Handled c)) by done.
      destruct (decide (c = BadMessage)) as [->|Hne].
      * by rewrite decide_True.
      * rewrite decide_False by congruence. done.
Qed.

Lemma handled_ack_loop (fails : gmap string bool) (l : list (string * Message)) :
  handled OK (flat_map (ack_message fails) l)
  + handled RepeatableError (flat_map (ack_message fails) l)
  + handled NonRepeatableError (flat_map (ack_message fails) l) = length l ∧
  handled BadMessage (flat_map (ack_message fails) l) = 0.
Proof.
  induction l as [|[k m] l [IH1 IH2]]; [done|].
  cbn [flat_map]. rewrite !handled_app.
  assert (handled OK (ack_message fails (k, m))
          + handled RepeatableError (ack_message fails (k, m))
          + handled NonRepeatableError (ack_message fails (k, m)) = 1 ∧
          handled BadMessage (ack_message fails (k, m)) = 0) as [H1 H2].
  { unfold ack_message. simpl. by destruct (fails !! k) as [[]|]. }
  split; [|lia]. simpl. lia.
Qed.

Lemma extractEvents_without_logs (messages : gmap string Message) :
  without_logs (extractEvents L messages).2 = bad_messages L (range messages).
Proof.
  unfold extractEvents. rewrite extractEvents_fold_trace. simpl.
  apply without_logs_handleBadMessage.
Qed.

(** A batch of which no message decodes leaves [extractEvents] with no
    event. *)
Lemma extractEvents_none_decodes (messages : gmap string Message) :
  (∀ k m, messages !! k = Some m → decode L m = None) →
  (extractEvents L messages).1 = ∅.
Proof.
  intros Hnone. unfold extractEvents.
  apply (foldl_invariant
           (λ st : gmap string (gmap string ProtoMessage) * Trace, st.1 = ∅)); [|done].
  intros [envEvents t] [k m] Hin Hempty. simpl in Hempty. subst envEvents.
  apply elem_of_range in Hin. specialize (Hnone k m Hin).
  unfold decode in Hnone. unfold extractEvents_body. simpl.
  destruct (proto_Unmarshal L (Message_Data m)) as [err|event]; [done|].
  by destruct (ptypes_UnmarshalAny L (Event_Event event)) as [err|inner].
Qed.

(** X4. The counters of a flush.  BadMessage is incremented once for every
    message that does not decode.  [send] returns before its final loop
    exactly when no message of the batch decodes, and then nothing else is
    counted; when some message decodes, OK, RepeatableError and
    NonRepeatableError together are incremented once for every message of
    the batch, the ones that do not decode included. *)
Theorem send_counters (p : Persister) (messages : gmap string Message) :
  handled BadMessage (send L p messages) = size (undecodable L messages) ∧
  (send_fails L p messages = None ↔
     ∀ k m, messages !! k = Some m → decode L m = None) ∧
  ((∀ k m, messages !! k = Some m → decode L m = None) →
     handled OK (send L p messages) = 0 ∧
     handled RepeatableError (send L p messages) = 0 ∧
     handled NonRepeatableError (send L p messages) = 0) ∧
  ((∃ k m, messages !! k = Some m ∧ is_Some (decode L m)) →
     handled OK (send L p messages)
     + handled RepeatableError (send L p messages)
     + handled NonRepeatableError (send L p messages) = size messages).
Proof.
  assert (∀ c, handled c (bad_messages L (range messages)) =
               if decide (c = BadMessage) then size (undecodable L messages) else 0)
    as Hbad.
  { intros c. rewrite handled_bad_messages. case_decide; [|done].
    apply (length_filter_range (λ km, decode L km.2 = None)). }
  assert (send_fails L p messages = None ↔
            ∀ k m, messages !! k = Some m → decode L m = None) as Hearly.
  { split.
    - intros Hnone k m Hm.
      destruct (decode L m) as [[event inner]|] eqn:Hdec; [exfalso|done].
      destruct (send_fails_decodable L p messages k m event inner Hm Hdec)
        as [fails Hsome].
      congruence.
    - intros Hnone.
      destruct (send_run_cases L p messages)
        as [(Hfails & _) | (fails & t & _ & Hne & _)]; [done|].
      by destruct (Hne (extractEvents_none_decodes messages Hnone)). }
  pose proof Hearly as [Hfwd Hbwd].
  destruct (send_run_cases L p messages)
    as [(Hnone & Hempty & Hsend) | (fails & t & Hsome & _ & _ & Hsend)].
  - assert (∀ c, handled c (send L p messages) =
                 if decide (c = BadMessage) then size (undecodable L messages) else 0)
      as Hall.
    { intros c. rewrite <- handled_without_logs, Hsend, without_logs_app.
      rewrite extractEvents_without_logs. simpl. rewrite app_nil_r. apply Hbad. }
    split; [by rewrite Hall|]. split; [done|]. split.
    + intros _. by rewrite !Hall.
    + intros (k & m & Hm & [x Hdec]).
      rewrite (Hfwd Hnone k m Hm) in Hdec. done.
  - assert (∀ c, handled c (send L p messages) =
                 handled c (bad_messages L (range messages))
                 + handled c (flat_map (ack_message fails) (range messages))) as Hall.
    { intros c. rewrite <- handled_without_logs.
      rewrite (send_without_logs L p messages fails Hsome). apply handled_app. }
    destruct (handled_ack_loop fails (range messages)) as [Hsum Hzero].
    rewrite length_range in Hsum.
    split; [|split; [done|split]].
    + rewrite Hall, Hbad, Hzero. rewrite decide_True by done. lia.
    + intros Hnone. specialize (Hbwd Hnone). congruence.
    + intros _. rewrite !Hall, !Hbad. rewrite !decide_False by done. lia.
Qed.

(** X5. What [extractEvents] collects: an event is held for the environment
    [ns] and the event id [eid] exactly when a message of the batch decodes
    to an envelope of that environment and id, and the payload held is the
    payload of such a message; apart from log entries its only effects are
    one Ack and one BadMessage for every message that does not decode. *)
Theorem extractEvents_collects (messages : gmap string Message) (ns eid : string) :
  (is_Some (lookup_event (extractEvents L messages).1 ns eid) ↔
   ∃ k m event inner,
     messages !! k = Some m ∧ decode L m = Some (event, inner) ∧
     Event_EnvironmentNamespace event = ns ∧ Event_Id event = eid) ∧
  (∀ inner,
     lookup_event (extractEvents L messages).1 ns eid = Some inner →
     ∃ k m event,
       messages !! k = Some m ∧ decode L m = Some (event, inner) ∧
       Event_EnvironmentNamespace event = ns ∧ Event_Id event = eid) ∧
  without_logs (extractEvents L messages).2 = bad_messages L (range messages) ∧
  (∀ m, acks m (extractEvents L messages).2
        = length (filter (λ km, km.2 = m ∧ decode L m = None) (range messages))) ∧
  (∀ m, nacks m (extractEvents L messages).2 = 0).
Proof.
  assert (∀ inner,
     lookup_event (extractEvents L messages).1 ns eid = Some inner →
     ∃ k m event,
       messages !! k = Some m ∧ decode L m = Some (event, inner) ∧
       Event_EnvironmentNamespace event = ns ∧ Event_Id event = eid) as Horigin.
  { intros inner Hlook. unfold extractEvents in Hlook.
    apply extractEvents_fold_origin in Hlook
      as [Hlook|(k & m & event & Hin & Hdec & Hns & Hid)].
    - unfold lookup_event in Hlook. simpl in Hlook. by rewrite lookup_empty in Hlook.
    - exists k, m, event. split; [by apply elem_of_range|done]. }
  split; [|split; [done|split; [apply extractEvents_without_logs|]]].
  - split.
    + intros [inner Hlook]. destruct (Horigin inner Hlook) as (k & m & event & ?).
      by exists k, m, event, inner.
    + intros (k & m & event & inner & Hm & Hdec & Hns & Hid).
      apply (extractEvents_fold_present L (range messages) (∅, []) ns eid).
      right. exists k, m, event, inner. split; [by apply elem_of_range|done].
  - split.
    + intros m. rewrite <- acks_without_logs, extractEvents_without_logs.
      unfold acks, bad_messages. induction (range messages) as [|[k m'] l IH]; [done|].
      cbn [flat_map]. rewrite filter_app, length_app, IH, (filter_cons _ (k, m')).
      simpl. destruct (decode L m') as [x|] eqn:Hdec.
      * simpl. rewrite decide_False; [done|]. intros [-> ?]. congruence.
      * rewrite !filter_cons.
        rewrite (decide_False (P := Handled BadMessage = Ack m)) by done.
        destruct (decide (m' = m)) as [->|Hne].
        -- rewrite (decide_True (P := Ack m = Ack m)) by done.
           by rewrite decide_True.
        -- rewrite (decide_False (P := Ack m' = Ack m)) by congruence.
           rewrite decide_False; [done|]. by intros [? ?].
    + intros m. rewrite <- nacks_without_logs, extractEvents_without_logs.
      unfold nacks, bad_messages. induction (range messages) as [|[k m'] l IH]; [done|].
      cbn [flat_map]. rewrite filter_app, length_app, IH.
      simpl. destruct (decode L m'); [done|].
      rewrite !filter_cons. by rewrite !decide_False by done.
Qed.

End Counters.

(** ** Marshalling *)

Section Marshalling.

Context {R : RangeOrder} (L : Lib).

(** X6. What [marshalEvent] can return.  Without an error the repeatable
    flag is false; with an error the record is the empty string; and the
    flag is true in one case only: a goal event (of source GOAL_BATCH, or
    with a tag) whose lookup of stored evaluations failed with an error
    other than KeyNotFound, which is the error returned.  Marshalling has
    no effect other than log entries. *)
Theorem marshalEvent_outcome (p : Persister) (event : ProtoMessage) (ns : string)
    (eventJSON : string) (repeatable : bool) (err : option error) (t : Trace) :
  marshalEvent L p event ns = (eventJSON, repeatable, err, t) →
  (err = None → repeatable = false) ∧
  (err ≠ None → eventJSON = "") ∧
  (repeatable = true →
     ∃ e stored se,
       event = MsgGoalEvent e ∧
       (GE_SourceId e = SourceId_GOAL_BATCH ∨ GE_Tag e ≠ "") ∧
       userEvaluationStorage_GetUserEvaluations p (GE_UserId e) ns (GE_Tag e)
         = (stored, Some se) ∧
       se ≠ ErrKeyNotFound ∧
       err = Some se) ∧
  without_logs t = [].
Proof.
  intros Hm.
  assert (without_logs t = []) as Hlogs.
  { pose proof (marshalEvent_only_logs L p event ns) as H. by rewrite Hm in H. }
  assert (∀ (j : string) (r : bool) (e' : option error),
            (e' = None → r = false) → (e' ≠ None → j = "") → r = false →
            (e' = None → r = false) ∧ (e' ≠ None → j = "") ∧
            (r = true →
               ∃ e stored se,
                 event = MsgGoalEvent e ∧
                 (GE_SourceId e = SourceId_GOAL_BATCH ∨ GE_Tag e ≠ "") ∧
                 userEvaluationStorage_GetUserEvaluations p (GE_UserId e) ns (GE_Tag e)
                   = (stored, Some se) ∧
                 se ≠ ErrKeyNotFound ∧ e' = Some se) ∧
            without_logs t = []) as Hplain.
  { intros j r e' H1 H2 ->. split; [done|]. split; [done|]. split; [done|]. done. }
  destruct event as [e|e|e| | |]; simpl in Hm.
  - unfold marshalEvaluationEvent in Hm.
    destruct (json_Marshal L _) as [b [e'|]]; simplify_eq; by apply Hplain.
  - unfold marshalGoalEvent, getEvaluations, getCurrentUserEvaluations in Hm.
    destruct (userEvaluationStorage_GetUserEvaluations p (GE_UserId e) ns (GE_Tag e))
      as [stored [se|]] eqn:Hst.
    + destruct (decide (GE_SourceId e = SourceId_GOAL_BATCH)) as [Hsrc|Hsrc].
      * destruct (decide (se = ErrKeyNotFound)) as [->|Hne].
        -- destruct (featureClient_EvaluateFeatures p _ _ _) as [resp [fe|]].
           ++ simplify_eq. by apply Hplain.
           ++ destruct (json_Marshal L _) as [b [e'|]]; simplify_eq; by apply Hplain.
        -- simplify_eq. split; [done|]. split; [done|]. split; [|done].
           intros _. exists e, stored, se. split; [done|]. split; [by left|]. done.
      * destruct (decide (GE_Tag e = "")) as [Htag|Htag].
        -- destruct (json_Marshal L _) as [b [e'|]]; simplify_eq; by apply Hplain.
        -- destruct (decide (se = ErrKeyNotFound)) as [->|Hne].
           ++ destruct (json_Marshal L _) as [b [e'|]]; simplify_eq; by apply Hplain.
           ++ simplify_eq. split; [done|]. split; [done|]. split; [|done].
              intros _. exists e, stored, se. split; [done|]. split; [by right|]. done.
    + destruct (decide (GE_SourceId e = SourceId_GOAL_BATCH)) as [Hsrc|Hsrc].
      * destruct (json_Marshal L _) as [b [e'|]]; simplify_eq; by apply Hplain.
      * destruct (decide (GE_Tag e = "")) as [Htag|Htag];
          destruct (json_Marshal L _) as [b [e'|]]; simplify_eq; by apply Hplain.
  - unfold marshalUserEvent in Hm.
    destruct (json_Marshal L _) as [b [e'|]]; simplify_eq; by apply Hplain.
  - simplify_eq. by apply Hplain.
  - simplify_eq. by apply Hplain.
  - simplify_eq. by apply Hplain.
Qed.

End Marshalling.

(** ** The worker loop *)

Section Worker.

Context {R : RangeOrder} (L : Lib).

Lemma batch_message_pending (p : Persister) (batch : gmap string Message) (t : Trace)
    (msg : Message) :
  stored_by_id batch →
  stored_by_id (batch_message L p (batch, t) msg).1 ∧
  ((0 < flushSize (opts p))%Z →
   (Z.of_nat (size batch) < flushSize (opts p))%Z →
   (Z.of_nat (size (batch_message L p (batch, t) msg).1) < flushSize (opts p))%Z).
Proof.
  intros Hkeys. unfold batch_message.
  case_decide as Hid; [done|].
  case_decide as Hsz; cbn [fst snd].
  - split; [|done]. intros id m Hm.
    apply lookup_insert_Some in Hm as [[<- <-]|[_ Hm]]; [done|by apply Hkeys].
  - split; [|by rewrite map_size_empty]. intros id m Hm. by rewrite lookup_empty in Hm.
Qed.

Lemma batch_select_pending (p : Persister) (st st' : gmap string Message * Trace)
    (s : Selected) :
  batch_select L p st s = inl st' →
  stored_by_id st.1 →
  stored_by_id st'.1 ∧
  ((0 < flushSize (opts p))%Z →
   (Z.of_nat (size st.1) < flushSize (opts p))%Z →
   (Z.of_nat (size st'.1) < flushSize (opts p))%Z).
Proof.
  destruct st as [batch t]. destruct s as [msg| | |]; simpl; intros Hsel Hkeys;
    try discriminate.
  - injection Hsel as <-. by apply batch_message_pending.
  - case_decide; injection Hsel as <-; cbn [fst snd]; [|done].
    split; [|by rewrite map_size_empty]. intros id m Hm. by rewrite lookup_empty in Hm.
Qed.

(** X7. Whatever the worker has observed, as long as it has not returned its
    pending batch holds every message under that message's own id attribute,
    which is not empty; and with a positive flush size the batch stays
    smaller than the flush size. *)
Theorem batch_pending (p : Persister) (ss : list Selected)
    (pending : gmap string Message) (t : Trace) :
  batch L p ss = inl (pending, t) →
  stored_by_id pending ∧
  ((0 < flushSize (opts p))%Z → (Z.of_nat (size pending) < flushSize (opts p))%Z).
Proof.
  unfold batch.
  assert (∀ st st',
    batch_loop L p st ss = inl st' →
    stored_by_id st.1 →
    stored_by_id st'.1 ∧
    ((0 < flushSize (opts p))%Z →
     (Z.of_nat (size st.1) < flushSize (opts p))%Z →
     (Z.of_nat (size st'.1) < flushSize (opts p))%Z)) as Hloop.
  { induction ss as [|s ss IH]; intros st st' Hrun Hkeys; simpl in Hrun.
    - by injection Hrun as <-.
    - destruct (batch_select L p st s) as [st1|] eqn:Hsel; [|discriminate].
      destruct (batch_select_pending p st st1 s Hsel Hkeys) as [Hkeys1 Hsize1].
      destruct (IH st1 st' Hrun Hkeys1) as [Hkeys' Hsize'].
      split; [done|]. intros Hpos Hsz. by apply Hsize', Hsize1. }
  intros Hrun. destruct (Hloop (∅, []) (pending, t) Hrun) as [Hkeys Hsize].
  - intros id m Hm. simpl in Hm. by rewrite lookup_empty in Hm.
  - split; [done|]. intros Hpos. apply Hsize; [done|]. simpl. by rewrite map_size_empty.
Qed.

(** X8. When the context is done, or the message channel is closed, the
    worker returns at once: the trace it returns is the trace up to that
    point, so the messages still pending in its batch are neither flushed
    nor Acked nor Nacked, and nothing that follows is looked at. *)
Theorem batch_returns (p : Persister) (ss rest : list Selected) (s : Selected) :
  s = CtxDone ∨ s = MessageChClosed →
  batch L p (ss ++ s :: rest) =
    match batch L p ss with
    | inl pending => inr pending.2
    | inr t => inr t
    end.
Proof.
  intros Hs. unfold batch. generalize ((∅, []) : gmap string Message * Trace).
  induction ss as [|s' ss IH]; intros st; simpl.
  - by destruct Hs as [-> | ->].
  - destruct (batch_select L p st s'); [apply IH|done].
Qed.

End Worker.

End FlushFacts.
(** * Facts about records and options *)

Module RecordsFacts.
Import Persister PersisterFacts FlushFacts Records.

Lemma dots_app (a b : string) : dots (a +:+ b) = dots a + dots b.
Proof. induction a as [|c a IH]; [done|]. simpl. rewrite IH. lia. Qed.

Lemma append_inj (a b c : string) : a +:+ b = a +:+ c → b = c.
Proof. induction a as [|x a IH]; [done|]. simpl. intros [= H]. by apply IH. Qed.

(** X9. The column of a piece of user metadata: within one environment
    different keys get different columns, and no key gets a column that the
    marshal functions set by name. *)
Theorem userMetadataColumn_columns (environmentNamespace key : string) :
  (∀ key', userMetadataColumn environmentNamespace key
           = userMetadataColumn environmentNamespace key' → key = key') ∧
  userMetadataColumn environmentNamespace key ∉ fixed_columns.
Proof.
  split.
  - intros key'. unfold userMetadataColumn. case_decide.
    + apply (append_inj "user.data.").
    + intros Heq. apply append_inj in Heq. by apply (append_inj ".user.data.") in Heq.
  - assert (2 ≤ dots (userMetadataColumn environmentNamespace key))%nat as Hdots.
    { unfold userMetadataColumn. case_decide; rewrite !dots_app; simpl; lia. }
    assert (Forall (λ c, (dots c ≤ 1)%nat) fixed_columns) as Hfixed.
    { apply (bool_decide_unpack _). vm_compute. exact I. }
    intros Hin. rewrite Forall_forall in Hfixed. specialize (Hfixed _ Hin). lia.
Qed.

Section Columns.

Context {R : RangeOrder} (L : Lib).

#[local] Instance userMetadataColumn_inj ns : Inj (=) (=) (userMetadataColumn ns).
Proof. intros k k' Heq. by apply (userMetadataColumn_columns ns k). Qed.

(** The loop over the user metadata, in closed form. *)
Lemma add_user_data_eq (ns : string) (u : User) (m : gmap string JSONValue) :
  add_user_data ns (Some u) m
  = (kmap (userMetadataColumn ns) (JString <$> User_Data u) : gmap string JSONValue) ∪ m.
Proof.
  unfold add_user_data. apply map_eq. intros c.
  destruct ((kmap (userMetadataColumn ns) (JString <$> User_Data u)
              : gmap string JSONValue) !! c) as [x|] eqn:Hc.
  - rewrite (lookup_union_Some_l _ _ _ _ Hc).
    apply lookup_kmap_Some in Hc as (k & -> & Hk); [|apply _].
    rewrite lookup_fmap in Hk. destruct (User_Data u !! k) as [v|] eqn:Hv; [|done].
    simpl in Hk. injection Hk as <-.
    destruct (range_split (User_Data u) k v Hv) as (before & after & -> & _ & Ha).
    rewrite foldl_app. cbn [foldl].
    apply (foldl_other_keys
      (λ m' : gmap string JSONValue, m' !! userMetadataColumn ns k = Some (JString v)) _ k);
      [|done|].
    + intros m' k' v' _ Hne Hm'. simpl. rewrite lookup_insert_ne; [done|].
      intros Heq. by apply Hne, (inj (userMetadataColumn ns)).
    + simpl. apply lookup_insert_eq.
  - rewrite lookup_union_r by done.
    assert (∀ k v, (k, v) ∈ range (User_Data u) → userMetadataColumn ns k ≠ c) as Hother.
    { intros k v Hin <-. apply elem_of_range in Hin.
      rewrite lookup_kmap, lookup_fmap, Hin in Hc by apply _. by simplify_eq/=. }
    apply (foldl_invariant (λ m' : gmap string JSONValue, m' !! c = m !! c)); [|done].
    intros m' [k v] Hin Hm'. simpl. rewrite lookup_insert_ne; [done|].
    by apply (Hother k v).
Qed.

(** X10. The record of an evaluation event.  What [marshalEvaluationEvent]
    hands to [json.Marshal] maps every named column to the field of the
    event it is named after, and the column of every key of the user
    metadata to the value of that key, and of no other key; the order in
    which the metadata is visited does not show.  Its result is the
    encoding of that record with repeatable = false, or the encoder's error
    with the empty string. *)
Theorem marshalEvaluationEvent_record (e : EvaluationEvent) (ns : string) :
  let columns := evaluationEventColumns L e ns in
  marshalEvaluationEvent L e ns =
    (match (json_Marshal L columns).2 with
     | Some err => (EmptyString, false, Some err)
     | None => ((json_Marshal L columns).1, false, None)
     end) ∧
  columns !! "environmentNamespace" = Some (JString ns) ∧
  columns !! "sourceId" = Some (JString (SourceId_String (EE_SourceId e))) ∧
  columns !! "tag" = Some (JString (EE_Tag e)) ∧
  columns !! "timestamp" = Some (JString (time_Format_RFC3339 L (EE_Timestamp e))) ∧
  columns !! "featureId" = Some (JString (EE_FeatureId e)) ∧
  columns !! "featureVersion"
    = Some (JString (strconv_FormatInt L (EE_FeatureVersion e))) ∧
  columns !! "userId" = Some (JString (EE_UserId e)) ∧
  columns !! "metric.userId" = Some (JString (EE_UserId e)) ∧
  columns !! "variationId" = Some (JString (EE_VariationId e)) ∧
  columns !! "reason" = (λ r, JString (Reason_Type r)) <$> EE_Reason e ∧
  (∀ key,
     columns !! userMetadataColumn ns key
       = match EE_User e with
         | Some u => JString <$> User_Data u !! key
         | None => None
         end).
Proof.
  intros columns.
  split.
  { unfold marshalEvaluationEvent.
    change (json_Marshal L _) with (json_Marshal L columns).
    by destruct (json_Marshal L columns) as [b [err|]]. }
  assert (∀ c, c ∈ fixed_columns →
            columns !! c = evaluationEventNamedColumns L e ns !! c) as Hnamed.
  { intros c Hc. unfold columns, evaluationEventColumns.
    destruct (EE_User e) as [u|]; [|done].
    rewrite add_user_data_eq. apply lookup_union_r.
    apply lookup_kmap_None; [apply _|]. intros k ->.
    by destruct (userMetadataColumn_columns ns k) as [_ Hnot]. }
  assert (Forall (λ c, c ∈ fixed_columns) fixed_columns) as Hall.
  { apply Forall_forall. by intros c Hc. }
  unfold fixed_columns in Hall at 2.
  repeat (apply Forall_cons in Hall as [? Hall]).
  repeat (split;
    [rewrite Hnamed by done; unfold evaluationEventNamedColumns;
     destruct (EE_Reason e); by simplify_map_eq|]).
  intros key. unfold columns, evaluationEventColumns.
  destruct (EE_User e) as [u|].
  - rewrite add_user_data_eq.
    destruct (User_Data u !! key) as [v|] eqn:Hv; simpl.
    + apply lookup_union_Some_l.
      rewrite lookup_kmap by apply _. by rewrite lookup_fmap, Hv.
    + rewrite lookup_union_r
        by (rewrite lookup_kmap by apply _; by rewrite lookup_fmap, Hv).
      destruct (userMetadataColumn_columns ns key) as [_ Hnot].
      unfold evaluationEventNamedColumns.
      assert (Forall (λ c, userMetadataColumn ns key ≠ c) fixed_columns) as Hne.
      { apply Forall_forall. by intros c Hc <-. }
      unfold fixed_columns in Hne.
      repeat (apply Forall_cons in Hne as [? Hne]).
      destruct (EE_Reason e); by simplify_map_eq.
  - simpl. destruct (userMetadataColumn_columns ns key) as [_ Hnot].
    unfold evaluationEventNamedColumns.
    assert (Forall (λ c, userMetadataColumn ns key ≠ c) fixed_columns) as Hne.
    { apply Forall_forall. by intros c Hc <-. }
    unfold fixed_columns in Hne.
    repeat (apply Forall_cons in Hne as [? Hne]).
    destruct (EE_Reason e); by simplify_map_eq.
Qed.

End Columns.

Lemma last_setting_snoc (sel : Option → option Z) (d : Z) (os : list Option) (o : Option) :
  last_setting sel d (os ++ [o])
  = match sel o with Some x => x | None => last_setting sel d os end.
Proof.
  unfold last_setting. rewrite omap_app. simpl.
  destruct (sel o) as [x|]; simpl.
  - by rewrite last_snoc.
  - by rewrite app_nil_r.
Qed.

(** X11. The options of a new persister.  Every setting is the argument of
    the last option of its kind, and the default (1000 messages a second,
    one worker, a flush every 50 messages or 5 seconds, 20 seconds for a
    flush) when there is none: options of different kinds do not disturb
    each other, in whatever order they are given, and [WithMetrics] and
    [WithLogger] change no setting.  The collaborators are the ones
    given. *)
Theorem NewPersister_options
    (featureClient : option User → string → string → list Evaluation * option error)
    (ds : gmap string string → string → gmap string bool * option error)
    (bt : string → string → string → list Evaluation * option error)
    (postgres : option PostgresClient) (os : list Option) :
  let p := NewPersister featureClient ds bt postgres os in
  maxMPS (opts p) = last_setting maxMPS_of 1000 os ∧
  numWorkers (opts p) = last_setting numWorkers_of 1 os ∧
  flushSize (opts p) = last_setting flushSize_of 50 os ∧
  flushInterval (opts p) = last_setting flushInterval_of (5 * time_Second) os ∧
  flushTimeout (opts p) = last_setting flushTimeout_of (20 * time_Second) os ∧
  featureClient_EvaluateFeatures p = featureClient ∧
  datastore_Write p = ds ∧
  userEvaluationStorage_GetUserEvaluations p = bt ∧
  postgresClient p = postgres.
Proof.
  simpl. induction os as [|o os IH] using rev_ind.
  - by cbv.
  - rewrite foldl_app, !last_setting_snoc. cbn [foldl].
    destruct IH as (IH1 & IH2 & IH3 & IH4 & IH5 & _).
    destruct o; simpl; by rewrite ?IH1, ?IH2, ?IH3, ?IH4, ?IH5.
Qed.

End RecordsFacts.
(** * Facts about the notification API *)

Module NotificationFacts.
Import Notification.

Lemma length_zero_nil {A : Type} (l : list A) : length l = 0 ↔ l = [].
Proof. by destruct l. Qed.

(** X12. Which create requests pass validation: exactly those with a
    command that has a name, at least one source type, and a recipient of
    type SlackChannel whose Slack channel recipient is there and has a
    webhook URL.  A request that fails is refused with one of seven
    statuses, never with statusInternal. *)
Theorem validateCreateSubscriptionRequest_accepts (req : CreateSubscriptionRequest) :
  (validateCreateSubscriptionRequest req = None ↔ complete_request req) ∧
  validateCreateSubscriptionRequest req ∈
    [None; Some statusNoCommand; Some statusNameRequired; Some statusSourceTypesRequired;
     Some statusRecipientRequired; Some statusUnknownRecipient;
     Some statusSlackRecipientRequired; Some statusSlackRecipientWebhookURLRequired].
Proof.
  unfold validateCreateSubscriptionRequest, validateRecipient, validateSlackRecipient,
    complete_request, localizedError.
  destruct req as [ns [[sts [[ty [[url]|]]|] name]|]]; simpl;
    repeat case_decide; simpl;
    (split; [split; [intros; simplify_eq|intros (? & ? & ? & ? & ? & ? & ? & ? & ? & ?)]|]);
    simplify_eq/=; try done; try set_solver.
  all: try (eexists _, _, _; repeat split; eauto; by rewrite <- length_zero_nil).
  all: by destruct sts.
Qed.

(** X13. An update request passes validation exactly when it has an id and
    the commands made from it are at least one and each changes something:
    source types to add or to delete that are not empty, a new name that is
    not empty.  The commands made from a request are the ones it holds,
    each once, in the order add, delete, rename. *)
Theorem validateUpdateSubscriptionRequest_commands (req : UpdateSubscriptionRequest) :
  let commands := createUpdateSubscriptionCommands req in
  (validateUpdateSubscriptionRequest req = None ↔
     USR_Id req ≠ "" ∧ commands ≠ [] ∧ Forall changes_something commands) ∧
  (∀ c, CmdAddSourceTypes c ∈ commands ↔ USR_AddSourceTypesCommand req = Some c) ∧
  (∀ c, CmdDeleteSourceTypes c ∈ commands ↔ USR_DeleteSourceTypesCommand req = Some c) ∧
  (∀ c, CmdRenameSubscription c ∈ commands ↔ USR_RenameSubscriptionCommand req = Some c) ∧
  StronglySorted lt (command_rank <$> commands).
Proof.
  unfold validateUpdateSubscriptionRequest, createUpdateSubscriptionCommands,
    isNoUpdateSubscriptionCommand, localizedError.
  destruct req as [ns id [[a]|] [[d]|] [[r]|]]; simpl.
  all: split; [|split; [|split; [|split]]].
  all: try (intros c; rewrite ?elem_of_cons, ?elem_of_nil; intuition congruence).
  all: try (repeat constructor; simpl; lia).
  all: repeat case_decide; repeat case_bool_decide; simpl;
    rewrite ?Forall_cons, ?Forall_nil; simpl;
    rewrite ?length_zero_nil in *; split; intros; try done; try tauto.
  all: try (split; [done|split; [done|tauto]]).
Qed.

End NotificationFacts.
(** * Facts about the Postgres client *)

Module PostgresFacts.
Import Postgres.

Lemma postgres_last_setting_snoc (sel : Option → option Z) (d : Z)
    (os : list Option) (o : Option) :
  last_setting sel d (os ++ [o])
  = match sel o with Some x => x | None => last_setting sel d os end.
Proof.
  unfold last_setting. rewrite omap_app. simpl.
  destruct (sel o) as [x|]; simpl.
  - by rewrite last_snoc.
  - by rewrite app_nil_r.
Qed.

Lemma options_last_setting (os : list Option) :
  foldl (λ dopts opt, apply_option opt dopts) defaultOptions os
  = {| connMaxLifetime := last_setting connMaxLifetime_of (300 * Records.time_Second) os;
       maxOpenConns := last_setting maxOpenConns_of 10 os;
       maxIdleConns := last_setting maxIdleConns_of 5 os |}.
Proof.
  induction os as [|o os IH] using rev_ind; [done|].
  rewrite foldl_app, !postgres_last_setting_snoc, IH. by destruct o.
Qed.

Section NewClient.

Context (w : World) (project region cluster instance dbUser dbPass dbName : string)
  (os : list Option).

(** X14. The cleanup of the driver.  When the registration of the driver
    fails [NewClient] returns that error and does nothing else.  When it
    succeeds the cleanup function is called exactly once on every path, as
    the last thing done to the driver and the database: also when a client
    is returned, whose driver has then been cleaned up already.  If the
    cleanup fails the process is ended, whatever was to be returned. *)
Theorem NewClient_cleanup :
  let r := NewClient w project region cluster instance dbUser dbPass dbName os in
  match pgxv4_RegisterDriver w alloydb with
  | Some err => r = (Returns None (Some err), [RegisterDriver alloydb])
  | None =>
      cleanups r.2 = 1%nat ∧
      (∃ before,
         (Cleanup ∉ before) ∧
         r.2 = before ++ Cleanup ::
                 match cleanup w with Some err => [Fatal err] | None => [] end) ∧
      (r.1 = Exits ↔ cleanup w ≠ None)
  end.
Proof.
  unfold NewClient.
  destruct (pgxv4_RegisterDriver w alloydb) as [e0|]; [done|].
  destruct (sql_Open w alloydb _) as [e1|]; [|destruct (db_PingContext w) as [e2|]];
    destruct (cleanup w) as [e3|]; simpl.
  all: split; [by vm_compute|split; [|split; [by intros ?|by intros ?]]].
  all: try (eexists [_; _; _]; split; [|reflexivity];
            rewrite !elem_of_cons, elem_of_nil; by intros [?|[?|[?|?]]]).
  all: try (eexists [_; _; _; _; _; _]; split; [|reflexivity];
            rewrite !elem_of_cons, elem_of_nil;
            by intros [?|[?|[?|[?|[?|[?|?]]]]]]).
  all: (eexists [_; _; _; _; _; _; _]; split; [|reflexivity];
        rewrite !elem_of_cons, elem_of_nil;
        by intros [?|[?|[?|[?|[?|[?|[?|?]]]]]]]).
Qed.

(** X15. What [NewClient] gives.  Unless the process is ended by a failing
    cleanup (of a driver that was registered), the error returned is that of the first step to fail among
    registering the driver, opening the database and the ping, and a client
    is returned only when none fails.  The client is on the database of the
    data source name made from the arguments, and its settings are, for
    each kind, the argument of the last option of the kind, or the default
    (300 seconds, 10 open, 5 idle connections); a ping is preceded by
    exactly these settings being made on the handle, and without an opened
    database nothing is done to the handle. *)
Theorem NewClient_outcome :
  let r := NewClient w project region cluster instance dbUser dbPass dbName os in
  let dsn := dataSourceName project region cluster instance dbUser dbPass dbName in
  let settings :=
    {| connMaxLifetime := last_setting connMaxLifetime_of (300 * Records.time_Second) os;
       maxOpenConns := last_setting maxOpenConns_of 10 os;
       maxIdleConns := last_setting maxIdleConns_of 5 os |} in
  r.1 = match pgxv4_RegisterDriver w alloydb, cleanup w with
        | None, Some _ => Exits
        | _, _ =>
            match first_failure w dsn with
            | Some err => Returns None (Some err)
            | None => Returns (Some {| db := dsn; opts := settings |}) None
            end
        end ∧
  (PingContext ∈ r.2 →
     ∃ t, r.2 = [RegisterDriver alloydb; Open alloydb dsn;
                 SetConnMaxLifetime (connMaxLifetime settings);
                 SetMaxOpenConns (maxOpenConns settings);
                 SetMaxIdleConns (maxIdleConns settings);
                 PingContext] ++ t) ∧
  (pgxv4_RegisterDriver w alloydb ≠ None ∨ sql_Open w alloydb dsn ≠ None →
     Forall (λ e, on_db e = false) r.2).
Proof.
  unfold NewClient, first_failure. rewrite options_last_setting.
  destruct (pgxv4_RegisterDriver w alloydb) as [e0|].
  { simpl. split; [done|]. split.
    - rewrite elem_of_cons, elem_of_nil. by intros [?|?].
    - intros _. by repeat constructor. }
  destruct (sql_Open w alloydb _) as [e1|]; [|destruct (db_PingContext w) as [e2|]];
    destruct (cleanup w) as [e3|]; simpl.
  all: split; [done|].
  all: split;
    [|intros [?|?]; try done; by repeat constructor].
  all: try (rewrite !elem_of_cons, elem_of_nil; intros ?; exfalso; intuition congruence).
  all: intros _; eexists; reflexivity.
Qed.

End NewClient.

End PostgresFacts.
(** * The facts above on the fixtures *)

Module GoalFixturesFacts.
Import Persister PersisterFacts Flush FlushFacts Fixtures.P.

Lemma persister_over_reports_written_records stored evaluated :
  reports_written_records (GoalFixtures.persister_over stored evaluated).
Proof. intros evs ns. apply persister_reports_written_records. Qed.

Lemma batch_with_goal_carries_own_id :
  carries_own_id GoalFixtures.lib GoalFixtures.batch_with_goal.
Proof.
  intros k m event innerEvent Hk Hdec. unfold GoalFixtures.batch_with_goal in Hk.
  apply lookup_singleton_Some in Hk as [<- <-].
  vm_compute in Hdec. by injection Hdec as <- _.
Qed.

Lemma batch_with_failed_write_carries_own_id :
  carries_own_id lib batch_with_failed_write.
Proof.
  intros k m event innerEvent Hk Hdec. unfold batch_with_failed_write in Hk.
  apply lookup_insert_Some in Hk as [[<- <-]|[_ Hk]].
  - vm_compute in Hdec. by injection Hdec as <- _.
  - apply lookup_singleton_Some in Hk as [<- <-].
    vm_compute in Hdec. by injection Hdec as <- _.
Qed.

Lemma send_goal_event_storage_error_witness :
  ∃ fails t1 t2,
    send_fails GoalFixtures.lib
      (GoalFixtures.persister_over ([], Some GoalFixtures.unavailable) ([], None))
      GoalFixtures.batch_with_goal = Some fails ∧
    fails !! "g" = Some true ∧
    send GoalFixtures.lib
      (GoalFixtures.persister_over ([], Some GoalFixtures.unavailable) ([], None))
      GoalFixtures.batch_with_goal
    = t1 ++ [Nack (message "g" "goal of g"); Handled RepeatableError] ++ t2.
Proof.
  apply (send_goal_event_storage_error GoalFixtures.lib
           (GoalFixtures.persister_over ([], Some GoalFixtures.unavailable) ([], None))
           GoalFixtures.batch_with_goal "g" (message "g" "goal of g")
           (envelope "g" "GoalEvent") goal_event [] GoalFixtures.unavailable).
  - exact batch_with_goal_carries_own_id.
  - apply persister_over_reports_written_records.
  - vm_compute. reflexivity.
  - vm_compute. reflexivity.
  - left. reflexivity.
  - reflexivity.
  - discriminate.
Defined.

Lemma send_goal_batch_fallback_error_witness :
  ∃ fails t1 t2,
    send_fails GoalFixtures.lib
      (GoalFixtures.persister_over ([], Some ErrKeyNotFound)
         ([], Some GoalFixtures.unavailable))
      GoalFixtures.batch_with_goal = Some fails ∧
    fails !! "g" = Some false ∧
    send GoalFixtures.lib
      (GoalFixtures.persister_over ([], Some ErrKeyNotFound)
         ([], Some GoalFixtures.unavailable))
      GoalFixtures.batch_with_goal
    = t1 ++ [Ack (message "g" "goal of g"); Handled NonRepeatableError] ++ t2 ∧
    Nack (message "g" "goal of g") ∉
      send GoalFixtures.lib
        (GoalFixtures.persister_over ([], Some ErrKeyNotFound)
           ([], Some GoalFixtures.unavailable))
        GoalFixtures.batch_with_goal.
Proof.
  apply (send_goal_batch_fallback_error GoalFixtures.lib
           (GoalFixtures.persister_over ([], Some ErrKeyNotFound)
              ([], Some GoalFixtures.unavailable))
           GoalFixtures.batch_with_goal "g" (message "g" "goal of g")
           (envelope "g" "GoalEvent") goal_event [] [] GoalFixtures.unavailable).
  - exact batch_with_goal_carries_own_id.
  - apply persister_over_reports_written_records.
  - vm_compute. reflexivity.
  - vm_compute. reflexivity.
  - reflexivity.
  - reflexivity.
  - reflexivity.
Defined.

Lemma send_datastore_verdict_witness :
  ∃ fails t1 t2,
    send_fails lib persister batch_with_failed_write = Some fails ∧
    fails !! "r" = Some true ∧
    send lib persister batch_with_failed_write
    = t1 ++ [Nack (message "r" "evaluation of r"); Handled RepeatableError] ++ t2.
Proof.
  destruct (send_datastore_verdict lib persister batch_with_failed_write
              "r" (message "r" "evaluation of r")
              (envelope "r" "EvaluationEvent") (MsgEvaluationEvent evaluation_event) "{}")
    as (_ & fails & t1 & t2 & Hfails & Hr & Hsend).
  - exact batch_with_failed_write_carries_own_id.
  - exact persister_reports_written_records.
  - vm_compute. reflexivity.
  - vm_compute. reflexivity.
  - vm_compute. reflexivity.
  - exists fails, t1, t2. split; [exact Hfails|]. split.
    + rewrite Hr. vm_compute. reflexivity.
    + rewrite Hsend. vm_compute. reflexivity.
Defined.

Lemma marshalEvent_outcome_witness :
  ∃ e stored se,
    MsgGoalEvent goal_event = MsgGoalEvent e ∧
    (GE_SourceId e = SourceId_GOAL_BATCH ∨ GE_Tag e ≠ "") ∧
    userEvaluationStorage_GetUserEvaluations
      (GoalFixtures.persister_over ([], Some GoalFixtures.unavailable) ([], None))
      (GE_UserId e) "ns0" (GE_Tag e) = (stored, Some se) ∧
    se ≠ ErrKeyNotFound ∧
    Some GoalFixtures.unavailable = Some se.
Proof.
  destruct (marshalEvent_outcome GoalFixtures.lib
              (GoalFixtures.persister_over ([], Some GoalFixtures.unavailable) ([], None))
              (MsgGoalEvent goal_event) "ns0" "" true (Some GoalFixtures.unavailable) [])
    as (_ & _ & Hrepeatable & _).
  - vm_compute. reflexivity.
  - exact (Hrepeatable eq_refl).
Defined.

Lemma batch_pending_witness :
  stored_by_id {["a" := message "a" "evaluation of r"]} ∧
  (Z.of_nat (size ({["a" := message "a" "evaluation of r"]} : gmap string Message)) < 50)%Z.
Proof.
  destruct (batch_pending lib persister
              [MessageCh (message "a" "evaluation of a");
               MessageCh (message "a" "evaluation of r")]
              {["a" := message "a" "evaluation of r"]}
              [Received; Received; Ack (message "a" "evaluation of a");
               Log LvlWarn "Message with duplicate id" [("id", "a")];
               Handled DuplicateID]) as [Hstored Hsize].
  - vm_compute. reflexivity.
  - split; [exact Hstored|]. apply Hsize. vm_compute. reflexivity.
Defined.

Lemma batch_returns_witness :
  batch lib persister
    ([MessageCh (message "a" "evaluation of a")] ++
     CtxDone :: [MessageCh (message "r" "evaluation of r"); TimerC])
  = inr [Received].
Proof.
  rewrite (batch_returns lib persister [MessageCh (message "a" "evaluation of a")]
             [MessageCh (message "r" "evaluation of r"); TimerC] CtxDone).
  - vm_compute. reflexivity.
  - left. reflexivity.
Defined.

End GoalFixturesFacts.
